(** * Rotating-star equilibrium geometry: phoebe/lib/rot_star.h

    The library is a set of C++ templates over a numeric type [T].  The
    code is embedded twice.

    Module [rot_star] instantiates [T] with the real numbers of the
    Standard Library: [+ - * /], [std::sqrt], [std::abs], [std::cbrt] and
    [std::pow] are the real operations ([/] and [sqrt] are the total
    functions of [Reals]), comparisons are decided by [Rlt_dec] and
    [Req_dec_T], and the quiet NaN returned by two of the functions is
    [None].  Decimal literals of the source are the same decimal literals in
    [R].  This is the code read in exact arithmetic; it carries the
    properties that do not depend on rounding.

    Module [rot_star_double] instantiates [T] with [double], the binary64
    floats of the kernel, for the two integrators: every operation rounds
    as the IEEE 754 operation does, the comparisons are the IEEE ones (false
    on NaN), and the thresholds [8./27] and [0.1] are the doubles the
    compiler produces.  It carries the properties that depend on which
    branch a call takes.

    Output arrays ([double *av], [T *res]) are maps from slot index to
    value; a function that writes them returns the updated map together
    with what it printed on [std::cerr]. *)

From Stdlib Require Import Reals Lra Lia List NArith Bool String Ascii.
From Stdlib Require Import Sorting.Sorted Sorting.Permutation.
Import ListNotations.
Open Scope R_scope.

(** ** Numeric helpers of the C++ standard library *)

(** [std::cbrt]: the real cube root, defined on the whole line. *)
Definition cbrt (x : R) : R :=
  match total_order_T x 0 with
  | inleft (left _) => - Rpower (- x) (/ 3)
  | inleft (right _) => 0
  | inright _ => Rpower x (/ 3)
  end.

(** [std::pow(x, y)] for the positive non-integer exponents used in this
    file: a negative base has no real power (NaN). *)
Definition std_pow (x y : R) : option R :=
  match total_order_T x 0 with
  | inleft (left _) => None
  | inleft (right _) => Some 0
  | inright _ => Some (Rpower x y)
  end.

(** ** Output arrays and diagnostics *)

Definition array := nat -> R.

(** [a[i] = x;] *)
Definition store (a : array) (i : nat) (x : R) : array :=
  fun j => if Nat.eqb j i then x else a j.

(** The scratch table [T k[4][3]] of the integrators. *)
Definition table := nat -> nat -> R.

(** [k[i][j] = x;] *)
Definition store2 (k : table) (i j : nat) (x : R) : table :=
  fun i' j' => if Nat.eqb i' i && Nat.eqb j' j then x else k i' j'.

Record outcome := { mem : array; cerr : list string }.

(** Plain [return;]: nothing printed. *)
Definition ret (a : array) : outcome := {| mem := a; cerr := [] |}.

(** [std::cerr << msg; return;] *)
Definition fail (a : array) (msg : string) : outcome :=
  {| mem := a; cerr := [msg] |}.

(** [std::sort] on reals.  The order is total, so the ascending
    rearrangement of a sequence is unique and every sorting algorithm returns
    it; insertion sort computes it here. *)
Fixpoint sort_insert (x : R) (l : list R) : list R :=
  match l with
  | [] => [x]
  | y :: l' => if Rle_dec x y then x :: l else y :: sort_insert x l'
  end.

Definition std_sort (l : list R) : list R := fold_right sort_insert [] l.

(** ** utils/utils.h (not among the sources) *)

Module utils.

(** Modelled from the spec: the constant [utils::M_4PI] of utils/utils.h,
    the prefactor written [4π] in the closed forms. *)
Definition M_4PI : R := 4 * PI.

(** Modelled from the spec: the constant [utils::M_2PI] of utils/utils.h,
    the prefactor written [2π] in the integration regime. *)
Definition M_2PI : R := 2 * PI.

(** The cubic whose coefficient array is [a], constant term first:
    [a[0] + a[1] x + a[2] x^2 + a[3] x^3]. *)
Definition cubic (a : list R) (x : R) : R :=
  nth 0 a 0 + nth 1 a 0 * x + nth 2 a 0 * x ^ 2 + nth 3 a 0 * x ^ 3.

(** Modelled from the spec: [utils::solve_cubic(a, roots)] of utils/utils.h.
    The solver itself is a parameter of [points_on_x_axis] below; this is
    its contract at the coefficient array [a]: the closed-form solver puts
    into [roots] real roots of the cubic.  For
    [a = {1, -Omega0, 0, omega^2/2}] the cubic is
    [1 - Omega0 x + omega^2/2 x^3], which for [x > 0] is the equation
    [potentialOnAxis(x, omega) = Omega0] of the points the function is
    documented to return. *)
Definition solve_cubic_sound (solve_cubic : list R -> list R) (a : list R) : Prop :=
  forall x, In x (solve_cubic a) -> cubic a x = 0.

(** Modelled from the spec: the solver "finds all real intersections", so
    every real root of the cubic is in [roots]. *)
Definition solve_cubic_complete (solve_cubic : list R -> list R) (a : list R) : Prop :=
  forall x, cubic a x = 0 -> In x (solve_cubic a).

End utils.

(** ** namespace rot_star *)

Module rot_star.

(** *** Potential evaluator *)

Definition lagrange_point (omega : R) : option R :=
  if Req_dec_T omega 0 then None
  else Some (cbrt (omega * omega)).

Definition potential_on_x_axis (x omega : R) : R :=
  1 / Rabs x + omega * omega * x * x / 2.

Definition pole (Omega0 omega : R) : R := 1 / Omega0.

Definition critical_potential (omega : R) : option R :=
  if Req_dec_T omega 0 then None
  else option_map (fun p => 3 * p / 2) (std_pow omega (2 / 3)).

(** *** Axis-intercept solver *)

Section AxisIntercepts.

(** [utils::solve_cubic]: from the coefficient array to the vector of real
    roots it fills. *)
Variable solve_cubic : list R -> list R.

(** [points] is the caller's vector, passed by reference and appended to.
    The branch for [omega == 0] is [return 1/Omega0;] in a function
    returning [void]: the value is dropped and the vector is left as it
    was. *)
Definition points_on_x_axis
    (points : list R) (Omega0 omega : R) (trimming : bool) : list R :=
  if Req_dec_T omega 0 then points
  else
    let a := [1; - Omega0; 0; omega * omega / 2] in
    let roots := solve_cubic a in
    let points :=
      fold_left
        (fun pts x => if Rlt_dec 0 x then pts ++ [x; - x] else pts)
        roots points in
    let points := std_sort points in
    if (2 <=? List.length points)%nat && trimming
    then tl (removelast points)
    else points.

End AxisIntercepts.

(** *** Geometry integrators *)

(** [const int m = 1 << 16;] *)
Definition m : N := N.shiftl 1 16.

(** The variables that live across iterations of the Runge-Kutta loops:
    [v], [s], the two accumulators and the table [k]. *)
Record rk_state := {
  rk_v : R;
  rk_s : R;
  rk_acc1 : R;
  rk_acc2 : R;
  rk_k : table
}.

(** Body of the loop of [area_volume]; [rk_acc1] is [A], [rk_acc2] is [V]. *)
Definition area_volume_step (b_area b_volume : bool) (t dv : R)
    (st : rk_state) : rk_state :=
  let v := rk_v st in
  let s := rk_s st in
  let A := rk_acc1 st in
  let V := rk_acc2 st in
  let k := rk_k st in
  (* 1. step *)
  let v1 := v in
  let s1 := s in
  let q := v1 * v1 + s1 in
  let F := 2 * v1 / (1 - t * q * sqrt q) in
  let k := store2 k 0 0 (dv * F) in
  let k := if b_area then store2 k 0 1 (dv * sqrt (s1 + F * F / 4)) else k in
  let k := if b_volume then store2 k 0 2 (dv * s1) else k in
  let s1 := s + k 0%nat 0%nat / 2 in
  (* 2. step *)
  let v1 := v - dv / 2 in
  let q := v1 * v1 + s1 in
  let F := 2 * v1 / (1 - t * q * sqrt q) in
  let k := store2 k 1 0 (dv * F) in
  let k := if b_area then store2 k 1 1 (dv * sqrt (s1 + F * F / 4)) else k in
  let k := if b_volume then store2 k 1 2 (dv * s1) else k in
  let s1 := s + k 1%nat 0%nat / 2 in
  (* 3. step *)
  let q := v1 * v1 + s1 in
  let F := 2 * v1 / (1 - t * q * sqrt q) in
  let k := store2 k 2 0 (dv * F) in
  let k := if b_area then store2 k 2 1 (dv * sqrt (s1 + F * F / 4)) else k in
  let k := if b_volume then store2 k 2 2 (dv * s1) else k in
  let s1 := s + k 2%nat 0%nat in
  (* 4. step *)
  let v1 := v - dv in
  let q := v1 * v1 + s1 in
  let F := 2 * v1 / (1 - t * q * sqrt q) in
  let k := store2 k 3 0 (dv * F) in
  let k := if b_area then store2 k 3 1 (dv * sqrt (s1 + F * F / 4)) else k in
  let k := if b_volume then store2 k 3 2 (dv * s1) else k in
  let s :=
    s + (k 0%nat 0%nat + 2 * (k 1%nat 0%nat + k 2%nat 0%nat) + k 3%nat 0%nat) / 6 in
  let A :=
    if b_area
    then A + (k 0%nat 1%nat + 2 * (k 1%nat 1%nat + k 2%nat 1%nat) + k 3%nat 1%nat) / 6
    else A in
  let V :=
    if b_volume
    then V + (k 0%nat 2%nat + 2 * (k 1%nat 2%nat + k 2%nat 2%nat) + k 3%nat 2%nat) / 6
    else V in
  let v := v - dv in
  {| rk_v := v; rk_s := s; rk_acc1 := A; rk_acc2 := V; rk_k := k |}.

(** [v = 1, s = 0], both accumulators and every cell of [k] zero. *)
Definition rk_init : rk_state :=
  {| rk_v := 1; rk_s := 0; rk_acc1 := 0; rk_acc2 := 0; rk_k := fun _ _ => 0 |}.

Definition area_volume_msg : string :=
  ("rotstar::area_volume:There is no solution for equator."
   ++ String "010"%char EmptyString)%string.

(** [choice]: bit 0 asks for the area (slot [av[0]]), bit 1 for the volume
    (slot [av[1]]). *)
Definition area_volume (av : array) (choice : N) (Omega0 omega : R) : outcome :=
  let b_area := N.eqb (N.land choice 1) 1 in
  let b_volume := N.eqb (N.land choice 2) 2 in
  if negb b_area && negb b_volume then ret av
  else
    let Omega2 := Omega0 * Omega0 in
    let Omega3 := Omega0 * Omega2 in
    if Req_dec_T omega 0 then
      let av := if b_area then store av 0 (utils.M_4PI / Omega2) else av in
      let av := if b_volume then store av 1 (utils.M_4PI / (3 * Omega3)) else av in
      ret av
    else
      let t := omega * omega / Omega3 in
      if Rlt_dec (8 / 27) t then fail av area_volume_msg
      else if Rlt_dec t 0.1 then
        let f := utils.M_4PI / Omega2 in
        let av :=
          if b_area then
            let a := [1; 0.6666666666666666; 1; 1.9428571428571428;
                      4.314285714285714; 10.398268398268398;
                      26.48877788877789; 70.22541902541903;
                      191.8665770657039; 536.7383091809828;
                      1536.0162254282043] in
            let A :=
              nth 0 a 0 + t * (nth 1 a 0 + t * (nth 2 a 0 + t * (nth 3 a 0
              + t * (nth 4 a 0 + t * (nth 5 a 0 + t * (nth 6 a 0
              + t * (nth 7 a 0 + t * (nth 8 a 0 + t * (nth 9 a 0
              + t * nth 10 a 0))))))))) in
            store av 0 (f * A)
          else av in
        let av :=
          if b_volume then
            let a := [1; 1; 1.6; 3.142857142857143; 6.933333333333334;
                      16.484848484848484; 41.302697302697304;
                      107.56923076923077; 288.6243489583333; 793.03125;
                      2230.111036424513] in
            let V :=
              nth 0 a 0 + t * (nth 1 a 0 + t * (nth 2 a 0 + t * (nth 3 a 0
              + t * (nth 4 a 0 + t * (nth 5 a 0 + t * (nth 6 a 0
              + t * (nth 7 a 0 + t * (nth 8 a 0 + t * (nth 9 a 0
              + t * nth 10 a 0))))))))) in
            store av 1 (f * V / (3 * Omega0))
          else av in
        ret av
      else
        let dv := 1 / IZR (Z.of_N m) in
        let st := N.iter m (area_volume_step b_area b_volume t dv) rk_init in
        let A := rk_acc1 st in
        let V := rk_acc2 st in
        let av := if b_area then store av 0 (utils.M_4PI * A / Omega2) else av in
        let av := if b_volume then store av 1 (utils.M_2PI * V / Omega3) else av in
        ret av.

(** Body of the loop of [volume]; [rk_acc1] is [Vol], [rk_acc2] is
    [dVoldOmega]. *)
Definition volume_step (b_Vol b_dVoldOmega : bool) (t dv : R)
    (st : rk_state) : rk_state :=
  let v := rk_v st in
  let s := rk_s st in
  let Vol := rk_acc1 st in
  let dVoldOmega := rk_acc2 st in
  let k := rk_k st in
  (* 1. step *)
  let v1 := v in
  let s1 := s in
  let q := v1 * v1 + s1 in
  let f := q * sqrt q in
  let F := 2 * v1 / (1 - t * f) in
  let k := store2 k 0 0 (dv * F) in
  let k := if b_Vol then store2 k 0 1 (dv * s1) else k in
  let k :=
    if b_dVoldOmega
    then store2 k 0 2 (dv * (s1 + t * s1 * f / (1 - t * f))) else k in
  let s1 := s + k 0%nat 0%nat / 2 in
  (* 2. step *)
  let v1 := v - dv / 2 in
  let q := v1 * v1 + s1 in
  let f := q * sqrt q in
  let F := 2 * v1 / (1 - t * f) in
  let k := store2 k 1 0 (dv * F) in
  let k := if b_Vol then store2 k 1 1 (dv * s1) else k in
  let k :=
    if b_dVoldOmega
    then store2 k 1 2 (dv * (s1 + t * s1 * f / (1 - t * f))) else k in
  let s1 := s + k 1%nat 0%nat / 2 in
  (* 3. step *)
  let q := v1 * v1 + s1 in
  let f := q * sqrt q in
  let F := 2 * v1 / (1 - t * f) in
  let k := store2 k 2 0 (dv * F) in
  let k := if b_Vol then store2 k 2 1 (dv * s1) else k in
  let k :=
    if b_dVoldOmega
    then store2 k 2 2 (dv * (s1 + t * s1 * f / (1 - t * f))) else k in
  let s1 := s + k 2%nat 0%nat in
  (* 4. step *)
  let v1 := v - dv in
  let q := v1 * v1 + s1 in
  let f := q * sqrt q in
  let F := 2 * v1 / (1 - t * f) in
  let k := store2 k 3 0 (dv * F) in
  let k := if b_Vol then store2 k 3 1 (dv * s1) else k in
  let k :=
    if b_dVoldOmega
    then store2 k 3 2 (dv * (s1 + t * s1 * f / (1 - t * f))) else k in
  let s :=
    s + (k 0%nat 0%nat + 2 * (k 1%nat 0%nat + k 2%nat 0%nat) + k 3%nat 0%nat) / 6 in
  let Vol :=
    if b_Vol
    then Vol + (k 0%nat 1%nat + 2 * (k 1%nat 1%nat + k 2%nat 1%nat) + k 3%nat 1%nat) / 6
    else Vol in
  let dVoldOmega :=
    if b_dVoldOmega
    then dVoldOmega
         + (k 0%nat 2%nat + 2 * (k 1%nat 2%nat + k 2%nat 2%nat) + k 3%nat 2%nat) / 6
    else dVoldOmega in
  let v := v - dv in
  {| rk_v := v; rk_s := s; rk_acc1 := Vol; rk_acc2 := dVoldOmega; rk_k := k |}.

(** [choice]: bit 0 asks for the volume (slot [res[0]]), bit 1 for
    dVolume/dOmega (slot [res[1]]). *)
Definition volume (res : array) (choice : N) (Omega0 omega : R) : outcome :=
  let b_Vol := N.eqb (N.land choice 1) 1 in
  let b_dVoldOmega := N.eqb (N.land choice 2) 2 in
  if negb b_Vol && negb b_dVoldOmega then ret res
  else
    let Omega2 := Omega0 * Omega0 in
    let Omega3 := Omega0 * Omega2 in
    if Req_dec_T omega 0 then
      let Vol := utils.M_4PI / (3 * Omega3) in
      let res := if b_Vol then store res 0 Vol else res in
      let res := if b_dVoldOmega then store res 1 (- 3 * Vol / Omega0) else res in
      ret res
    else
      let t := omega * omega / Omega3 in
      if Rlt_dec (8 / 27) t then fail res area_volume_msg
      else if Rlt_dec t 0.1 then
        let a := [1; 1; 1.6; 3.142857142857143; 6.933333333333334;
                  16.484848484848484; 41.302697302697304;
                  107.56923076923077; 288.6243489583333; 793.03125;
                  2230.111036424513] in
        let Vol :=
          nth 0 a 0 + t * (nth 1 a 0 + t * (nth 2 a 0 + t * (nth 3 a 0
          + t * (nth 4 a 0 + t * (nth 5 a 0 + t * (nth 6 a 0
          + t * (nth 7 a 0 + t * (nth 8 a 0 + t * (nth 9 a 0
          + t * nth 10 a 0))))))))) in
        let f := utils.M_4PI / (3 * Omega3) in
        let res := if b_Vol then store res 0 (f * Vol) else res in
        let res :=
          if b_dVoldOmega then
            let dVoldt :=
              nth 1 a 0 + t * (2 * nth 2 a 0 + t * (3 * nth 3 a 0
              + t * (4 * nth 4 a 0 + t * (5 * nth 5 a 0 + t * (6 * nth 6 a 0
              + t * (7 * nth 7 a 0 + t * (8 * nth 8 a 0 + t * (9 * nth 9 a 0
              + t * 10 * nth 10 a 0)))))))) in
            store res 1 (- 3 * f * (Vol + t * dVoldt) / Omega0)
          else res in
        ret res
      else
        let dv := 1 / IZR (Z.of_N m) in
        let st := N.iter m (volume_step b_Vol b_dVoldOmega t dv) rk_init in
        let Vol := rk_acc1 st in
        let dVoldOmega := rk_acc2 st in
        let f := utils.M_2PI / Omega3 in
        let res := if b_Vol then store res 0 (f * Vol) else res in
        let res :=
          if b_dVoldOmega then store res 1 (- 3 * f * dVoldOmega / Omega0) else res in
        ret res.

End rot_star.

Import rot_star.


(** * The widget table: phoebe-gui/src/phoebe_gui_types.c

    The GUI keeps its widgets in a chained hash table keyed by name.  A C
    string is the [string] of its characters; the functions read it up to
    the first NUL character, as the C code does.  Pointers to GTK widgets,
    parameters and other widgets are opaque addresses, [0] being [NULL].
    A name passed to a function is a string, never the NULL pointer.  A
    widget is the record of its fields; the table maps each bucket index to
    its chain, newest entry first.  What C leaves undefined (reading
    through a NULL name) is the result [Undefined].  The messages of
    [phoebe_debug] are not modelled. *)

From Stdlib Require Import ZArith Ascii.

Module gui.

Definition pointer := N.
Definition NULL : pointer := 0%N.

(** [struct GUI_widget]; [name] is [None] while the field is [NULL]. *)
Record GUI_widget := {
  name : option string;
  type : Z;
  gtk : pointer;
  par : pointer;
  aux : Z;
  dep : pointer
}.

(** [GUI_wt->bucket[i]] for every index [i]: the chain of widgets. *)
Definition GUI_widget_table := N -> list GUI_widget.

(** [GUI_wt->bucket[i] = NULL] for every [i], as [gui_init_widgets] leaves
    the fresh table. *)
Definition empty_table : GUI_widget_table := fun _ => [].

(** [GUI_wt->bucket[i] = chain;] *)
Definition set_bucket (wt : GUI_widget_table) (i : N) (chain : list GUI_widget)
    : GUI_widget_table :=
  fun j => if N.eqb j i then chain else wt j.

(** The outcome of a call: a result, or undefined behaviour. *)
Inductive run (A : Type) : Type :=
| Done (a : A)
| Undefined.
Arguments Done {A} a.
Arguments Undefined {A}.

(** The characters of a C string: those before the first NUL. *)
Fixpoint c_str (s : string) : string :=
  match s with
  | EmptyString => EmptyString
  | String c s' =>
      if N.eqb (N_of_ascii c) 0 then EmptyString else String c (c_str s')
  end.

(** [strcmp (a, b) == 0] *)
Definition strcmp_eq (a b : string) : bool := String.eqb (c_str a) (c_str b).

(** [strdup (name)] *)
Definition strdup (name : string) : string := c_str name.

Section WidgetTable.

(** The macros [GUI_WT_HASH_MULTIPLIER] and [GUI_WT_HASH_BUCKETS] of
    phoebe_gui_types.h and the status code [SUCCESS] of the phoebe library
    are not among the sources: they are parameters. *)
Variable GUI_WT_HASH_MULTIPLIER : N.
Variable GUI_WT_HASH_BUCKETS : N.
Variable SUCCESS : Z.

(** What [phoebe_malloc] leaves in a field that is never initialised. *)
Variable uninitialised : pointer.

Definition gui_widget_new : GUI_widget :=
  {| name := None; type := 0; gtk := NULL; par := NULL; aux := 0;
     dep := uninitialised |}.

(** [widget] is [None] for a NULL pointer; the widget is updated in place,
    so the updated object is returned beside the status. *)
Definition gui_widget_hookup (widget : option GUI_widget) (gtk_ : pointer)
    (aux_ : Z) (type_ : Z) (name_ : string) (par_ dep_ : pointer)
    : Z * option GUI_widget :=
  match widget with
  | None => ((-1)%Z, None)
  | Some _ =>
      (SUCCESS,
       Some {| name := Some (strdup name_); type := type_; gtk := gtk_;
               par := par_; aux := aux_; dep := dep_ |})
  end.

(** The loop [for (w = name; *w != '\0'; w++) h = MULTIPLIER * h + *w;] on
    a 32-bit [unsigned int]. *)
Fixpoint hash_loop (h : N) (w : string) : N :=
  match w with
  | EmptyString => h
  | String c w' =>
      if N.eqb (N_of_ascii c) 0 then h
      else hash_loop
             ((GUI_WT_HASH_MULTIPLIER * h + N_of_ascii c) mod 2 ^ 32)%N w'
  end.

Definition gui_widget_hash (name_ : string) : N :=
  (hash_loop 0 name_ mod GUI_WT_HASH_BUCKETS)%N.

(** The loop [while (bucket) { if (strcmp (bucket->widget->name, name) == 0)
    break; bucket = bucket->next; }] shared by lookup and commit: the entry
    it stops at, if any. *)
Fixpoint chain_find (name_ : string) (bucket : list GUI_widget)
    : run (option GUI_widget) :=
  match bucket with
  | [] => Done None
  | widget :: next =>
      match name widget with
      | None => Undefined
      | Some n =>
          if strcmp_eq n name_ then Done (Some widget)
          else chain_find name_ next
      end
  end.

Definition gui_widget_lookup (wt : GUI_widget_table) (name_ : string)
    : run (option GUI_widget) :=
  let hash := gui_widget_hash name_ in
  chain_find name_ (wt hash).

Definition gui_widget_commit (widget : GUI_widget) (wt : GUI_widget_table)
    : run (Z * GUI_widget_table) :=
  match name widget with
  | None => Undefined
  | Some wname =>
      let hash := gui_widget_hash wname in
      match chain_find wname (wt hash) with
      | Undefined => Undefined
      | Done (Some _) => Done (SUCCESS, wt)
      | Done None => Done (SUCCESS, set_bucket wt hash (widget :: wt hash))
      end
  end.

(** The status of [gui_widget_commit] is dropped; the call returns
    [SUCCESS] whenever [gtk] is not NULL. *)
Definition gui_widget_add (name_ : string) (gtk_ : pointer) (aux_ : Z)
    (type_ : Z) (par_ dep_ : pointer) (wt : GUI_widget_table)
    : run (Z * GUI_widget_table) :=
  if N.eqb gtk_ NULL then Done ((-1)%Z, wt)
  else
    let widget := gui_widget_new in
    match gui_widget_hookup (Some widget) gtk_ aux_ type_ name_ par_ dep_ with
    | (_, Some widget) =>
        match gui_widget_commit widget wt with
        | Done (_, wt') => Done (SUCCESS, wt')
        | Undefined => Undefined
        end
    | (_, None) => Undefined
    end.

End WidgetTable.

End gui.

(** * The integrators on doubles

    [rot_star::area_volume] and [rot_star::volume] with [T = double].
    Operations and comparisons are those of IEEE 754 binary64; integer
    literals of the source are the doubles they convert to. *)

From Stdlib Require Import Floats QArith.
Close Scope Q_scope.

Module rot_star_double.

Local Open Scope float_scope.
Local Set Warnings "-inexact-float".

(** Output arrays and the scratch table, as in [rot_star]. *)
Definition array := nat -> float.

Definition store (a : array) (i : nat) (x : float) : array :=
  fun j => if Nat.eqb j i then x else a j.

Definition table := nat -> nat -> float.

Definition store2 (k : table) (i j : nat) (x : float) : table :=
  fun i' j' => if Nat.eqb i' i && Nat.eqb j' j then x else k i' j'.

Record outcome := { mem : array; cerr : list string }.

Definition ret (a : array) : outcome := {| mem := a; cerr := [] |}.

Definition fail (a : array) (msg : string) : outcome :=
  {| mem := a; cerr := [msg] |}.

(** Modelled from the spec: the constant [utils::M_4PI] of utils/utils.h,
    the prefactor written [4π]: the double nearest to it. *)
Definition M_4PI : float := 0x1.921fb54442d18p+3.

(** Modelled from the spec: the constant [utils::M_2PI] of utils/utils.h,
    the prefactor written [2π]: the double nearest to it. *)
Definition M_2PI : float := 0x1.921fb54442d18p+2.

(** [const int m = 1 << 16;] *)
Definition m : N := N.shiftl 1 16.

Record rk_state := {
  rk_v : float;
  rk_s : float;
  rk_acc1 : float;
  rk_acc2 : float;
  rk_k : table
}.

(** Body of the loop of [area_volume]; [rk_acc1] is [A], [rk_acc2] is [V]. *)
Definition area_volume_step (b_area b_volume : bool) (t dv : float)
    (st : rk_state) : rk_state :=
  let v := rk_v st in
  let s := rk_s st in
  let A := rk_acc1 st in
  let V := rk_acc2 st in
  let k := rk_k st in
  (* 1. step *)
  let v1 := v in
  let s1 := s in
  let q := v1 * v1 + s1 in
  let F := 2 * v1 / (1 - t * q * sqrt q) in
  let k := store2 k 0 0 (dv * F) in
  let k := if b_area then store2 k 0 1 (dv * sqrt (s1 + F * F / 4)) else k in
  let k := if b_volume then store2 k 0 2 (dv * s1) else k in
  let s1 := s + k 0%nat 0%nat / 2 in
  (* 2. step *)
  let v1 := v - dv / 2 in
  let q := v1 * v1 + s1 in
  let F := 2 * v1 / (1 - t * q * sqrt q) in
  let k := store2 k 1 0 (dv * F) in
  let k := if b_area then store2 k 1 1 (dv * sqrt (s1 + F * F / 4)) else k in
  let k := if b_volume then store2 k 1 2 (dv * s1) else k in
  let s1 := s + k 1%nat 0%nat / 2 in
  (* 3. step *)
  let q := v1 * v1 + s1 in
  let F := 2 * v1 / (1 - t * q * sqrt q) in
  let k := store2 k 2 0 (dv * F) in
  let k := if b_area then store2 k 2 1 (dv * sqrt (s1 + F * F / 4)) else k in
  let k := if b_volume then store2 k 2 2 (dv * s1) else k in
  let s1 := s + k 2%nat 0%nat in
  (* 4. step *)
  let v1 := v - dv in
  let q := v1 * v1 + s1 in
  let F := 2 * v1 / (1 - t * q * sqrt q) in
  let k := store2 k 3 0 (dv * F) in
  let k := if b_area then store2 k 3 1 (dv * sqrt (s1 + F * F / 4)) else k in
  let k := if b_volume then store2 k 3 2 (dv * s1) else k in
  let s :=
    s + (k 0%nat 0%nat + 2 * (k 1%nat 0%nat + k 2%nat 0%nat) + k 3%nat 0%nat) / 6 in
  let A :=
    if b_area
    then A + (k 0%nat 1%nat + 2 * (k 1%nat 1%nat + k 2%nat 1%nat) + k 3%nat 1%nat) / 6
    else A in
  let V :=
    if b_volume
    then V + (k 0%nat 2%nat + 2 * (k 1%nat 2%nat + k 2%nat 2%nat) + k 3%nat 2%nat) / 6
    else V in
  let v := v - dv in
  {| rk_v := v; rk_s := s; rk_acc1 := A; rk_acc2 := V; rk_k := k |}.

Definition rk_init : rk_state :=
  {| rk_v := 1; rk_s := 0; rk_acc1 := 0; rk_acc2 := 0; rk_k := fun _ _ => 0 |}.

Definition area_volume (av : array) (choice : N) (Omega0 omega : float)
    : outcome :=
  let b_area := N.eqb (N.land choice 1) 1 in
  let b_volume := N.eqb (N.land choice 2) 2 in
  if negb b_area && negb b_volume then ret av
  else
    let Omega2 := Omega0 * Omega0 in
    let Omega3 := Omega0 * Omega2 in
    if omega =? 0 then
      let av := if b_area then store av 0 (M_4PI / Omega2) else av in
      let av := if b_volume then store av 1 (M_4PI / (3 * Omega3)) else av in
      ret av
    else
      let t := omega * omega / Omega3 in
      if 8 / 27 <? t then fail av rot_star.area_volume_msg
      else if t <? 0.1 then
        let f := M_4PI / Omega2 in
        let av :=
          if b_area then
            let a := [1; 0.6666666666666666; 1; 1.9428571428571428;
                      4.314285714285714; 10.398268398268398;
                      26.48877788877789; 70.22541902541903;
                      191.8665770657039; 536.7383091809828;
                      1536.0162254282043] in
            let A :=
              nth 0 a 0 + t * (nth 1 a 0 + t * (nth 2 a 0 + t * (nth 3 a 0
              + t * (nth 4 a 0 + t * (nth 5 a 0 + t * (nth 6 a 0
              + t * (nth 7 a 0 + t * (nth 8 a 0 + t * (nth 9 a 0
              + t * nth 10 a 0))))))))) in
            store av 0 (f * A)
          else av in
        let av :=
          if b_volume then
            let a := [1; 1; 1.6; 3.142857142857143; 6.933333333333334;
                      16.484848484848484; 41.302697302697304;
                      107.56923076923077; 288.6243489583333; 793.03125;
                      2230.111036424513] in
            let V :=
              nth 0 a 0 + t * (nth 1 a 0 + t * (nth 2 a 0 + t * (nth 3 a 0
              + t * (nth 4 a 0 + t * (nth 5 a 0 + t * (nth 6 a 0
              + t * (nth 7 a 0 + t * (nth 8 a 0 + t * (nth 9 a 0
              + t * nth 10 a 0))))))))) in
            store av 1 (f * V / (3 * Omega0))
          else av in
        ret av
      else
        let dv := 1 / 65536 in
        let st := N.iter m (area_volume_step b_area b_volume t dv) rk_init in
        let A := rk_acc1 st in
        let V := rk_acc2 st in
        let av := if b_area then store av 0 (M_4PI * A / Omega2) else av in
        let av := if b_volume then store av 1 (M_2PI * V / Omega3) else av in
        ret av.

(** Body of the loop of [volume]; [rk_acc1] is [Vol], [rk_acc2] is
    [dVoldOmega]. *)
Definition volume_step (b_Vol b_dVoldOmega : bool) (t dv : float)
    (st : rk_state) : rk_state :=
  let v := rk_v st in
  let s := rk_s st in
  let Vol := rk_acc1 st in
  let dVoldOmega := rk_acc2 st in
  let k := rk_k st in
  (* 1. step *)
  let v1 := v in
  let s1 := s in
  let q := v1 * v1 + s1 in
  let f := q * sqrt q in
  let F := 2 * v1 / (1 - t * f) in
  let k := store2 k 0 0 (dv * F) in
  let k := if b_Vol then store2 k 0 1 (dv * s1) else k in
  let k :=
    if b_dVoldOmega
    then store2 k 0 2 (dv * (s1 + t * s1 * f / (1 - t * f))) else k in
  let s1 := s + k 0%nat 0%nat / 2 in
  (* 2. step *)
  let v1 := v - dv / 2 in
  let q := v1 * v1 + s1 in
  let f := q * sqrt q in
  let F := 2 * v1 / (1 - t * f) in
  let k := store2 k 1 0 (dv * F) in
  let k := if b_Vol then store2 k 1 1 (dv * s1) else k in
  let k :=
    if b_dVoldOmega
    then store2 k 1 2 (dv * (s1 + t * s1 * f / (1 - t * f))) else k in
  let s1 := s + k 1%nat 0%nat / 2 in
  (* 3. step *)
  let q := v1 * v1 + s1 in
  let f := q * sqrt q in
  let F := 2 * v1 / (1 - t * f) in
  let k := store2 k 2 0 (dv * F) in
  let k := if b_Vol then store2 k 2 1 (dv * s1) else k in
  let k :=
    if b_dVoldOmega
    then store2 k 2 2 (dv * (s1 + t * s1 * f / (1 - t * f))) else k in
  let s1 := s + k 2%nat 0%nat in
  (* 4. step *)
  let v1 := v - dv in
  let q := v1 * v1 + s1 in
  let f := q * sqrt q in
  let F := 2 * v1 / (1 - t * f) in
  let k := store2 k 3 0 (dv * F) in
  let k := if b_Vol then store2 k 3 1 (dv * s1) else k in
  let k :=
    if b_dVoldOmega
    then store2 k 3 2 (dv * (s1 + t * s1 * f / (1 - t * f))) else k in
  let s :=
    s + (k 0%nat 0%nat + 2 * (k 1%nat 0%nat + k 2%nat 0%nat) + k 3%nat 0%nat) / 6 in
  let Vol :=
    if b_Vol
    then Vol + (k 0%nat 1%nat + 2 * (k 1%nat 1%nat + k 2%nat 1%nat) + k 3%nat 1%nat) / 6
    else Vol in
  let dVoldOmega :=
    if b_dVoldOmega
    then dVoldOmega
         + (k 0%nat 2%nat + 2 * (k 1%nat 2%nat + k 2%nat 2%nat) + k 3%nat 2%nat) / 6
    else dVoldOmega in
  let v := v - dv in
  {| rk_v := v; rk_s := s; rk_acc1 := Vol; rk_acc2 := dVoldOmega; rk_k := k |}.

Definition volume (res : array) (choice : N) (Omega0 omega : float)
    : outcome :=
  let b_Vol := N.eqb (N.land choice 1) 1 in
  let b_dVoldOmega := N.eqb (N.land choice 2) 2 in
  if negb b_Vol && negb b_dVoldOmega then ret res
  else
    let Omega2 := Omega0 * Omega0 in
    let Omega3 := Omega0 * Omega2 in
    if omega =? 0 then
      let Vol := M_4PI / (3 * Omega3) in
      let res := if b_Vol then store res 0 Vol else res in
      let res := if b_dVoldOmega then store res 1 (- 3 * Vol / Omega0) else res in
      ret res
    else
      let t := omega * omega / Omega3 in
      if 8 / 27 <? t then fail res rot_star.area_volume_msg
      else if t <? 0.1 then
        let a := [1; 1; 1.6; 3.142857142857143; 6.933333333333334;
                  16.484848484848484; 41.302697302697304;
                  107.56923076923077; 288.6243489583333; 793.03125;
                  2230.111036424513] in
        let Vol :=
          nth 0 a 0 + t * (nth 1 a 0 + t * (nth 2 a 0 + t * (nth 3 a 0
          + t * (nth 4 a 0 + t * (nth 5 a 0 + t * (nth 6 a 0
          + t * (nth 7 a 0 + t * (nth 8 a 0 + t * (nth 9 a 0
          + t * nth 10 a 0))))))))) in
        let f := M_4PI / (3 * Omega3) in
        let res := if b_Vol then store res 0 (f * Vol) else res in
        let res :=
          if b_dVoldOmega then
            let dVoldt :=
              nth 1 a 0 + t * (2 * nth 2 a 0 + t * (3 * nth 3 a 0
              + t * (4 * nth 4 a 0 + t * (5 * nth 5 a 0 + t * (6 * nth 6 a 0
              + t * (7 * nth 7 a 0 + t * (8 * nth 8 a 0 + t * (9 * nth 9 a 0
              + t * 10 * nth 10 a 0)))))))) in
            store res 1 (- 3 * f * (Vol + t * dVoldt) / Omega0)
          else res in
        ret res
      else
        let dv := 1 / 65536 in
        let st := N.iter m (volume_step b_Vol b_dVoldOmega t dv) rk_init in
        let Vol := rk_acc1 st in
        let dVoldOmega := rk_acc2 st in
        let f := M_2PI / Omega3 in
        let res := if b_Vol then store res 0 (f * Vol) else res in
        let res :=
          if b_dVoldOmega then store res 1 (- 3 * f * dVoldOmega / Omega0) else res in
        ret res.

End rot_star_double.
(** * Vocabulary of the statements *)

(** ** The output mask *)

(** [wants choice bit] is the test [(choice & bit) == bit] of the source. *)
Definition wants (choice bit : N) : bool := N.eqb (N.land choice bit) bit.

(** Conditional write [if (b) a[i] = x;]. *)
Definition store_if (b : bool) (a : array) (i : nat) (x : R) : array :=
  if b then store a i x else a.

(** ** Results of the Runge-Kutta loops *)

(** [T dv = 1./m] *)
Definition dv_step : R := 1 / IZR (Z.of_N m).

Definition area_volume_rk (b_area b_volume : bool) (t : R) : rk_state :=
  N.iter m (area_volume_step b_area b_volume t dv_step) rk_init.

Definition volume_rk (b_Vol b_dVoldOmega : bool) (t : R) : rk_state :=
  N.iter m (volume_step b_Vol b_dVoldOmega t dv_step) rk_init.

(** ** The asymptotic series *)

(** Horner evaluation of the polynomial with coefficients [a], constant
    term first. *)
Definition horner (a : list R) (t : R) : R :=
  fold_right (fun c acc => c + t * acc) 0 a.

(** Coefficients [k*c_0, (k+1)*c_1, ...]. *)
Fixpoint deriv_from (k : Z) (a : list R) : list R :=
  match a with
  | [] => []
  | c :: a' => IZR k * c :: deriv_from (k + 1) a'
  end.

(** Term-by-term derivative: coefficient [k] of the result is
    [(k+1) * a[k+1]]. *)
Definition poly_deriv (a : list R) : list R :=
  match a with
  | [] => []
  | _ :: a' => deriv_from 1 a'
  end.

(** The table [a[]] of the area series in [area_volume]. *)
Definition area_coeffs : list R :=
  [1; 0.6666666666666666; 1; 1.9428571428571428; 4.314285714285714;
   10.398268398268398; 26.48877788877789; 70.22541902541903;
   191.8665770657039; 536.7383091809828; 1536.0162254282043].

(** The table [a[]] of the volume series, the same in [area_volume] and in
    [volume]. *)
Definition volume_coeffs : list R :=
  [1; 1; 1.6; 3.142857142857143; 6.933333333333334; 16.484848484848484;
   41.302697302697304; 107.56923076923077; 288.6243489583333; 793.03125;
   2230.111036424513].

(** ** The outcome of each regime *)

(** What [area_volume] leaves behind in each regime, once something is
    requested. *)
Definition area_volume_sphere (av : array) (choice : N) (Omega0 : R) : outcome :=
  ret (store_if (wants choice 2)
         (store_if (wants choice 1) av 0 (4 * PI / Omega0 ^ 2))
         1 (4 * PI / (3 * Omega0 ^ 3))).

Definition volume_sphere (res : array) (choice : N) (Omega0 : R) : outcome :=
  ret (store_if (wants choice 2)
         (store_if (wants choice 1) res 0 (4 * PI / (3 * Omega0 ^ 3)))
         1 (- 3 * (4 * PI / (3 * Omega0 ^ 3)) / Omega0)).

Definition area_volume_integrated (av : array) (choice : N) (Omega0 omega : R)
    : outcome :=
  let st := area_volume_rk (wants choice 1) (wants choice 2)
              (omega * omega / (Omega0 * (Omega0 * Omega0))) in
  ret (store_if (wants choice 2)
         (store_if (wants choice 1) av 0
            (utils.M_4PI * rk_acc1 st / (Omega0 * Omega0)))
         1 (utils.M_2PI * rk_acc2 st / (Omega0 * (Omega0 * Omega0)))).

Definition volume_integrated (res : array) (choice : N) (Omega0 omega : R)
    : outcome :=
  let st := volume_rk (wants choice 1) (wants choice 2)
              (omega * omega / (Omega0 * (Omega0 * Omega0))) in
  let f := utils.M_2PI / (Omega0 * (Omega0 * Omega0)) in
  ret (store_if (wants choice 2)
         (store_if (wants choice 1) res 0 (f * rk_acc1 st))
         1 (- 3 * f * rk_acc2 st / Omega0)).

Definition area_volume_series (av : array) (choice : N) (Omega0 omega : R)
    : outcome :=
  let t := omega * omega / (Omega0 * (Omega0 * Omega0)) in
  let f := utils.M_4PI / (Omega0 * Omega0) in
  ret (store_if (wants choice 2)
         (store_if (wants choice 1) av 0 (f * horner area_coeffs t))
         1 (f * horner volume_coeffs t / (3 * Omega0))).

Definition volume_series (res : array) (choice : N) (Omega0 omega : R)
    : outcome :=
  let t := omega * omega / (Omega0 * (Omega0 * Omega0)) in
  let f := utils.M_4PI / (3 * (Omega0 * (Omega0 * Omega0))) in
  ret (store_if (wants choice 2)
         (store_if (wants choice 1) res 0 (f * horner volume_coeffs t))
         1 (- 3 * f
              * (horner volume_coeffs t
                 + t * horner (poly_deriv volume_coeffs) t)
              / Omega0)).

(** The dispatch of [area_volume], regime by regime. *)
Definition area_volume_dispatch (av : array) (choice : N) (Omega0 omega : R)
    : outcome :=
  let t := omega * omega / (Omega0 * (Omega0 * Omega0)) in
  if negb (wants choice 1) && negb (wants choice 2) then ret av
  else if Req_dec_T omega 0 then area_volume_sphere av choice Omega0
  else if Rlt_dec (8 / 27) t then fail av area_volume_msg
  else if Rlt_dec t 0.1 then area_volume_series av choice Omega0 omega
  else area_volume_integrated av choice Omega0 omega.

(** The dispatch of [volume], regime by regime. *)
Definition volume_dispatch (res : array) (choice : N) (Omega0 omega : R)
    : outcome :=
  let t := omega * omega / (Omega0 * (Omega0 * Omega0)) in
  if negb (wants choice 1) && negb (wants choice 2) then ret res
  else if Req_dec_T omega 0 then volume_sphere res choice Omega0
  else if Rlt_dec (8 / 27) t then fail res area_volume_msg
  else if Rlt_dec t 0.1 then volume_series res choice Omega0 omega
  else volume_integrated res choice Omega0 omega.

(** ** The two Runge-Kutta loops side by side *)


(** ** Axis intercepts *)

(** The loop [for (auto && x: roots) if (x > 0) {...}] of
    [points_on_x_axis]. *)
Definition push_pairs (roots points : list R) : list R :=
  fold_left (fun pts x => if Rlt_dec 0 x then pts ++ [x; - x] else pts)
    roots points.

(** A sequence read backwards with every sign flipped. *)
Definition mirror (l : list R) : list R := rev (map Ropp l).

(** Symmetric about zero: with every [x] the sequence holds [-x]. *)
Definition symmetric (l : list R) : Prop :=
  forall x, In x l -> In (- x) l.

(** A solver answering [2], [6] and [-3/2], whatever it is asked. *)
Definition solver_13_2_6 : list R -> list R := fun _ => [2; 6; - 3 / 2].

(** A solver answering with the three real roots [1/2], [1/6] and [-2/3]
    of [1 - (13/2) x + 18 x^3], the cubic of [Omega0 = 13/2],
    [omega = 6]. *)
Definition solver_18 : list R -> list R := fun _ => [1 / 2; 1 / 6; - (2 / 3)].

(** ** The potential on the axis *)

(** Slope of [x |-> potential_on_x_axis x omega] at a point [x > 0]. *)
Definition axial_derivative (x omega : R) : R :=
  - (1 / (x * x)) + omega * omega * x.

(** ** Runge-Kutta states compared *)

(** Two loop states on the same track: the same [v] and the same [s]. *)
Definition same_track (sa sb : rk_state) : Prop :=
  rk_v sa = rk_v sb /\ rk_s sa = rk_s sb.

Definition same_acc1 (sa sb : rk_state) : Prop :=
  same_track sa sb /\ rk_acc1 sa = rk_acc1 sb.

Definition same_acc2 (sa sb : rk_state) : Prop :=
  same_track sa sb /\ rk_acc2 sa = rk_acc2 sb.

(** ** The widget table *)

(** A table is well formed when every entry has a name, stored as copied by
    [strdup], sits in the bucket of the hash of its name, and no chain
    holds two entries of the same name. *)
Definition table_wf (M B : N) (wt : gui.GUI_widget_table) : Prop :=
  (forall i w, In w (wt i) ->
     exists n, gui.name w = Some n /\ gui.c_str n = n
               /\ gui.gui_widget_hash M B n = i)
  /\ (forall i, NoDup (map gui.name (wt i))).

(** The widget that [gui_widget_add] builds from its arguments. *)
Definition widget_of (name_ : string) (gtk_ : gui.pointer) (aux_ type_ : Z)
    (par_ dep_ : gui.pointer) : gui.GUI_widget :=
  {| gui.name := Some (gui.c_str name_); gui.type := type_; gui.gtk := gtk_;
     gui.par := par_; gui.aux := aux_; gui.dep := dep_ |}.

(** A table of 103 buckets (multiplier 31) holding the one widget
    ["phoebe_window"]. *)
Definition table_with_window : gui.GUI_widget_table :=
  gui.set_bucket gui.empty_table
    (gui.gui_widget_hash 31 103 "phoebe_window")
    [widget_of "phoebe_window" 1%N 0 0 0%N 0%N].

(** * Vocabulary for the integrators on doubles *)

Module dbl.

Import rot_star_double.
Local Open Scope float_scope.
Local Set Warnings "-inexact-float".

(** The regime key [t = omega*omega/Omega3] as the code computes it. *)
Definition key (Omega0 omega : float) : float :=
  omega * omega / (Omega0 * (Omega0 * Omega0)).

(** The double [8./27]. *)
Definition breakup : float := 8 / 27.

(** The double [0.1]. *)
Definition slow : float := 0.1.

Definition store_if (b : bool) (a : array) (i : nat) (x : float) : array :=
  if b then store a i x else a.

(** Results of the Runge-Kutta loops. *)
Definition area_volume_rk (b_area b_volume : bool) (t : float) : rk_state :=
  N.iter m (area_volume_step b_area b_volume t (1 / 65536)) rk_init.

Definition volume_rk (b_Vol b_dVoldOmega : bool) (t : float) : rk_state :=
  N.iter m (volume_step b_Vol b_dVoldOmega t (1 / 65536)) rk_init.

(** The polynomial [A] of the area series, as the code evaluates it. *)
Definition series_A (t : float) : float :=
  let a := [1; 0.6666666666666666; 1; 1.9428571428571428;
            4.314285714285714; 10.398268398268398;
            26.48877788877789; 70.22541902541903;
            191.8665770657039; 536.7383091809828;
            1536.0162254282043] in
  nth 0 a 0 + t * (nth 1 a 0 + t * (nth 2 a 0 + t * (nth 3 a 0
  + t * (nth 4 a 0 + t * (nth 5 a 0 + t * (nth 6 a 0
  + t * (nth 7 a 0 + t * (nth 8 a 0 + t * (nth 9 a 0
  + t * nth 10 a 0))))))))).

(** The table of the volume series. *)
Definition volume_table : list float :=
  [1; 1; 1.6; 3.142857142857143; 6.933333333333334;
   16.484848484848484; 41.302697302697304;
   107.56923076923077; 288.6243489583333; 793.03125;
   2230.111036424513].

(** The polynomial [V] (or [Vol]) of the volume series, as the code
    evaluates it. *)
Definition series_V (t : float) : float :=
  let a := volume_table in
  nth 0 a 0 + t * (nth 1 a 0 + t * (nth 2 a 0 + t * (nth 3 a 0
  + t * (nth 4 a 0 + t * (nth 5 a 0 + t * (nth 6 a 0
  + t * (nth 7 a 0 + t * (nth 8 a 0 + t * (nth 9 a 0
  + t * nth 10 a 0))))))))).

(** The polynomial [dVoldt], as the code evaluates it. *)
Definition series_dV (t : float) : float :=
  let a := volume_table in
  nth 1 a 0 + t * (2 * nth 2 a 0 + t * (3 * nth 3 a 0
  + t * (4 * nth 4 a 0 + t * (5 * nth 5 a 0 + t * (6 * nth 6 a 0
  + t * (7 * nth 7 a 0 + t * (8 * nth 8 a 0 + t * (9 * nth 9 a 0
  + t * 10 * nth 10 a 0)))))))).

(** The outcome of each regime. *)
Definition area_volume_sphere (av : array) (choice : N) (Omega0 : float)
    : outcome :=
  ret (store_if (wants choice 2)
         (store_if (wants choice 1) av 0 (M_4PI / (Omega0 * Omega0)))
         1 (M_4PI / (3 * (Omega0 * (Omega0 * Omega0))))).

Definition volume_sphere (res : array) (choice : N) (Omega0 : float)
    : outcome :=
  let Vol := M_4PI / (3 * (Omega0 * (Omega0 * Omega0))) in
  ret (store_if (wants choice 2)
         (store_if (wants choice 1) res 0 Vol)
         1 (- 3 * Vol / Omega0)).

Definition area_volume_series (av : array) (choice : N) (Omega0 omega : float)
    : outcome :=
  let t := key Omega0 omega in
  let f := M_4PI / (Omega0 * Omega0) in
  ret (store_if (wants choice 2)
         (store_if (wants choice 1) av 0 (f * series_A t))
         1 (f * series_V t / (3 * Omega0))).

Definition volume_series (res : array) (choice : N) (Omega0 omega : float)
    : outcome :=
  let t := key Omega0 omega in
  let f := M_4PI / (3 * (Omega0 * (Omega0 * Omega0))) in
  ret (store_if (wants choice 2)
         (store_if (wants choice 1) res 0 (f * series_V t))
         1 (- 3 * f * (series_V t + t * series_dV t) / Omega0)).

Definition area_volume_integrated (av : array) (choice : N)
    (Omega0 omega : float) : outcome :=
  let st := area_volume_rk (wants choice 1) (wants choice 2)
              (key Omega0 omega) in
  ret (store_if (wants choice 2)
         (store_if (wants choice 1) av 0
            (M_4PI * rk_acc1 st / (Omega0 * Omega0)))
         1 (M_2PI * rk_acc2 st / (Omega0 * (Omega0 * Omega0)))).

Definition volume_integrated (res : array) (choice : N)
    (Omega0 omega : float) : outcome :=
  let st := volume_rk (wants choice 1) (wants choice 2) (key Omega0 omega) in
  let f := M_2PI / (Omega0 * (Omega0 * Omega0)) in
  ret (store_if (wants choice 2)
         (store_if (wants choice 1) res 0 (f * rk_acc1 st))
         1 (- 3 * f * rk_acc2 st / Omega0)).

(** The dispatch of the two integrators, regime by regime. *)
Definition area_volume_dispatch (av : array) (choice : N)
    (Omega0 omega : float) : outcome :=
  if negb (wants choice 1) && negb (wants choice 2) then ret av
  else if omega =? 0 then area_volume_sphere av choice Omega0
  else if breakup <? key Omega0 omega then fail av rot_star.area_volume_msg
  else if key Omega0 omega <? slow
       then area_volume_series av choice Omega0 omega
  else area_volume_integrated av choice Omega0 omega.

Definition volume_dispatch (res : array) (choice : N)
    (Omega0 omega : float) : outcome :=
  if negb (wants choice 1) && negb (wants choice 2) then ret res
  else if omega =? 0 then volume_sphere res choice Omega0
  else if breakup <? key Omega0 omega then fail res rot_star.area_volume_msg
  else if key Omega0 omega <? slow then volume_series res choice Omega0 omega
  else volume_integrated res choice Omega0 omega.

(** Relations between the states of two Runge-Kutta runs. *)
Definition same_track (sa sb : rk_state) : Prop :=
  rk_v sa = rk_v sb /\ rk_s sa = rk_s sb.

Definition same_acc1 (sa sb : rk_state) : Prop :=
  same_track sa sb /\ rk_acc1 sa = rk_acc1 sb.

Definition same_acc2 (sa sb : rk_state) : Prop :=
  same_track sa sb /\ rk_acc2 sa = rk_acc2 sb.

(** The rational number a double stands for; none for NaN and the
    infinities. *)
Definition exact (x : float) : option Q :=
  match Prim2SF x with
  | S754_zero _ => Some 0%Q
  | S754_finite s mant e =>
      Some (Qmult (inject_Z (if s then Z.neg mant else Z.pos mant))
              (Qpower 2 e))
  | _ => None
  end.

(** The regime key [omega^2/Omega0^3] of two doubles in exact
    arithmetic. *)
Definition exact_key (Omega0 omega : float) : option Q :=
  match exact Omega0, exact omega with
  | Some W, Some w => Some (Qdiv (Qmult w w) (Qmult W (Qmult W W)))
  | _, _ => None
  end.

(** What the caller observes of an outcome: the diagnostics and the two
    output slots. *)
Definition observed (o : outcome) : list string * (float * float) :=
  (cerr o, (mem o 0%nat, mem o 1%nat)).

(** How the exact regime key compares with a rational bound. *)
Definition exact_key_compare (Omega0 omega : float) (bound : Q)
    : option comparison :=
  option_map (fun q => Qcompare q bound) (exact_key Omega0 omega).

End dbl.
(** * Properties *)

(** ** Output arrays *)

Lemma store_same (a : array) (i : nat) (x : R) : store a i x i = x.
Proof. unfold store. now rewrite Nat.eqb_refl. Qed.

Lemma store_other (a : array) (i j : nat) (x : R) :
  j <> i -> store a i x j = a j.
Proof.
  intros Hji. unfold store.
  destruct (Nat.eqb_spec j i) as [E | _]; [contradiction | reflexivity].
Qed.

Lemma store_if_frame (b : bool) (a : array) (i j : nat) (x : R) :
  (j = i -> b = false) -> store_if b a i x j = a j.
Proof.
  intros Hb. unfold store_if. destruct b; [| reflexivity].
  apply store_other. intros E. specialize (Hb E). discriminate.
Qed.

(** The regime key [t = omega*omega/Omega3] as the source computes it, and
    as the spec writes it. *)
Lemma regime_key_eq (Omega0 omega : R) :
  omega * omega / (Omega0 * (Omega0 * Omega0)) = omega ^ 2 / Omega0 ^ 3.
Proof. unfold Rdiv. f_equal; [ring | f_equal; ring]. Qed.

(** ** Dispatch lemmas *)

Lemma some_wanted (choice : N) :
  wants choice 1 = true \/ wants choice 2 = true ->
  negb (wants choice 1) && negb (wants choice 2) = false.
Proof.
  intros [-> | ->]; simpl; [reflexivity | apply andb_false_r].
Qed.

(** The unrolled Horner expressions of the source are [horner] on the
    table. *)
Lemma horner_unrolled (a0 a1 a2 a3 a4 a5 a6 a7 a8 a9 a10 t : R) :
  a0 + t * (a1 + t * (a2 + t * (a3 + t * (a4 + t * (a5 + t * (a6
  + t * (a7 + t * (a8 + t * (a9 + t * a10)))))))))
  = horner [a0; a1; a2; a3; a4; a5; a6; a7; a8; a9; a10] t.
Proof. unfold horner, fold_right. ring. Qed.

Lemma horner_deriv_unrolled (a0 a1 a2 a3 a4 a5 a6 a7 a8 a9 a10 t : R) :
  a1 + t * (2 * a2 + t * (3 * a3 + t * (4 * a4 + t * (5 * a5 + t * (6 * a6
  + t * (7 * a7 + t * (8 * a8 + t * (9 * a9 + t * 10 * a10))))))))
  = horner (poly_deriv [a0; a1; a2; a3; a4; a5; a6; a7; a8; a9; a10]) t.
Proof.
  unfold horner, poly_deriv, deriv_from, fold_right.
  cbn [Z.add Pos.add Pos.succ]. ring.
Qed.

Lemma area_volume_cases (av : array) (choice : N) (Omega0 omega : R) :
  area_volume av choice Omega0 omega
  = area_volume_dispatch av choice Omega0 omega.
Proof.
  unfold area_volume, area_volume_dispatch.
  fold (wants choice 1) (wants choice 2).
  destruct (negb (wants choice 1) && negb (wants choice 2)); [reflexivity |].
  destruct (Req_dec_T omega 0) as [_ | _].
  - unfold area_volume_sphere, store_if, utils.M_4PI.
    replace (Omega0 * Omega0) with (Omega0 ^ 2) by ring.
    replace (Omega0 * Omega0 ^ 2) with (Omega0 ^ 3) by ring.
    reflexivity.
  - destruct (Rlt_dec _ _) as [_ | _]; [reflexivity |].
    destruct (Rlt_dec _ _) as [_ | _].
    2: { unfold area_volume_integrated, area_volume_rk, dv_step, store_if.
         cbv zeta. reflexivity. }
    unfold area_volume_series, store_if, area_coeffs, volume_coeffs.
    cbv beta iota zeta delta [nth].
    rewrite !horner_unrolled. reflexivity.
Qed.

Lemma volume_cases (res : array) (choice : N) (Omega0 omega : R) :
  volume res choice Omega0 omega = volume_dispatch res choice Omega0 omega.
Proof.
  unfold volume, volume_dispatch.
  fold (wants choice 1) (wants choice 2).
  destruct (negb (wants choice 1) && negb (wants choice 2)); [reflexivity |].
  destruct (Req_dec_T omega 0) as [_ | _].
  - unfold volume_sphere, store_if, utils.M_4PI.
    replace (Omega0 * (Omega0 * Omega0)) with (Omega0 ^ 3) by ring.
    reflexivity.
  - destruct (Rlt_dec _ _) as [_ | _]; [reflexivity |].
    destruct (Rlt_dec _ _) as [_ | _].
    2: { unfold volume_integrated, volume_rk, dv_step, store_if.
         cbv zeta. reflexivity. }
    unfold volume_series, store_if, volume_coeffs.
    cbv beta iota zeta delta [nth].
    rewrite (horner_deriv_unrolled 1), !horner_unrolled. reflexivity.
Qed.

Lemma store_if_frame2 (b1 b2 : bool) (a : array) (x y : R) (i : nat) :
  (i = 0%nat -> b1 = false) -> (i = 1%nat -> b2 = false) ->
  store_if b2 (store_if b1 a 0 x) 1 y i = a i.
Proof.
  intros H0 H1. rewrite store_if_frame by exact H1.
  apply store_if_frame. exact H0.
Qed.

Lemma store_if_slot0 (b2 : bool) (a : array) (x y : R) :
  store_if b2 (store_if true a 0 x) 1 y 0%nat = x.
Proof. destruct b2; reflexivity. Qed.

Lemma store_if_slot1 (b1 : bool) (a : array) (x y : R) :
  store_if true (store_if b1 a 0 x) 1 y 1%nat = y.
Proof. reflexivity. Qed.

(** ** The non-rotating sphere *)



(** ** The output mask is a frame *)

(** C10.  For every [Omega0], [omega] and mask, [area_volume] and [volume]
    change only the slots whose bit is set: a slot whose bit is clear, and
    every slot other than 0 and 1, keeps the caller's value; and with no
    bit set both return at once, the array as it was and nothing printed. *)
Theorem C10_mask_frame (a : array) (choice : N) (Omega0 omega : R) :
  (forall i : nat,
      (i = 0%nat -> wants choice 1 = false) ->
      (i = 1%nat -> wants choice 2 = false) ->
      mem (area_volume a choice Omega0 omega) i = a i
      /\ mem (volume a choice Omega0 omega) i = a i)
  /\ (wants choice 1 = false -> wants choice 2 = false ->
      area_volume a choice Omega0 omega = ret a
      /\ volume a choice Omega0 omega = ret a).
Proof.
  split.
  - intros i H0 H1.
    rewrite area_volume_cases, volume_cases.
    unfold area_volume_dispatch, volume_dispatch,
      area_volume_sphere, volume_sphere, area_volume_series, volume_series,
      area_volume_integrated, volume_integrated.
    cbv zeta.
    destruct (negb (wants choice 1) && negb (wants choice 2));
      [split; reflexivity |].
    destruct (Req_dec_T omega 0);
      [split; apply store_if_frame2; assumption |].
    destruct (Rlt_dec (8 / 27) _); [split; reflexivity |].
    destruct (Rlt_dec _ 0.1); split; apply store_if_frame2; assumption.
  - intros H1 H2.
    rewrite area_volume_cases, volume_cases.
    unfold area_volume_dispatch, volume_dispatch.
    rewrite H1, H2. split; reflexivity.
Qed.

Lemma C10_witness :
  wants 1 2 = false
  /\ mem (area_volume (fun _ => 7) 1 5 1) 1%nat = 7
  /\ mem (volume (fun _ => 7) 1 5 1) 1%nat = 7.
Proof.
  split; [reflexivity |].
  destruct (C10_mask_frame (fun _ => 7) 1 5 1) as [Hframe _].
  apply (Hframe 1%nat); [discriminate | reflexivity].
Defined.

(** ** The two integrators compute the same volume *)





(** ** The derivative series *)

Lemma horner_cons (c : R) (a : list R) (t : R) :
  horner (c :: a) t = c + t * horner a t.
Proof. reflexivity. Qed.

Lemma horner_deriv_from (a : list R) (k : Z) (t : R) :
  horner (deriv_from k a) t
  = IZR k * horner a t + t * horner (poly_deriv a) t.
Proof.
  revert k. induction a as [| b a IH]; intros k.
  - simpl. unfold horner. simpl. ring.
  - change (deriv_from k (b :: a)) with (IZR k * b :: deriv_from (k + 1) a).
    change (poly_deriv (b :: a)) with (deriv_from 1 a).
    rewrite !horner_cons, (IH (k + 1)%Z), (IH 1%Z), plus_IZR. ring.
Qed.

(** [poly_deriv] is the derivative: the polynomial of the differentiated
    coefficients is the derivative of the polynomial. *)
Lemma horner_derivable (a : list R) (x : R) :
  derivable_pt_lim (horner a) x (horner (poly_deriv a) x).
Proof.
  induction a as [| c a IH].
  - unfold horner; simpl. apply derivable_pt_lim_const.
  - change (poly_deriv (c :: a)) with (deriv_from 1 a).
    rewrite horner_deriv_from.
    replace (1 * horner a x + x * horner (poly_deriv a) x)
      with (0 + (1 * horner a x + x * horner (poly_deriv a) x)) by ring.
    change (horner (c :: a)) with ((fun _ => c) + (id * horner a))%F.
    apply derivable_pt_lim_plus; [apply derivable_pt_lim_const |].
    apply derivable_pt_lim_mult; [apply derivable_pt_lim_id | exact IH].
Qed.

Lemma nth_deriv_from (a : list R) (j : Z) (k : nat) :
  nth k (deriv_from j a) 0 = IZR (j + Z.of_nat k) * nth k a 0.
Proof.
  revert j k. induction a as [| c a IH]; intros j k.
  - destruct k; simpl; ring.
  - destruct k as [| k].
    + simpl. now rewrite Z.add_0_r.
    + change (nth (S k) (deriv_from j (c :: a)) 0)
        with (nth k (deriv_from (j + 1) a) 0).
      rewrite IH. change (nth (S k) (c :: a) 0) with (nth k a 0).
      f_equal. f_equal. lia.
Qed.

(** Coefficient [k-1] of the differentiated table is [k * a[k]]. *)
Lemma nth_poly_deriv (a : list R) (k : nat) :
  nth k (poly_deriv a) 0 = INR (S k) * nth (S k) a 0.
Proof.
  destruct a as [| c a].
  - destruct k; simpl; ring.
  - change (poly_deriv (c :: a)) with (deriv_from 1 a).
    rewrite nth_deriv_from. change (nth (S k) (c :: a) 0) with (nth k a 0).
    rewrite INR_IZR_INZ. do 2 f_equal. lia.
Qed.

(** In exact arithmetic, for every [Omega0 > 0] and [omega > 0] with
    [0 < t = omega^2/Omega0^3 < 0.1], the derivative written by [volume]
    (derivative bit set) is [-3 f (V(t) + t V'(t)) / Omega0] with
    [f = 4 pi / (3 Omega0^3)], where [V] is the Horner value of the
    11-coefficient volume table and [V'] the Horner value of its
    term-by-term derivative: coefficient [k-1] of [V'] is [k * a[k]], and
    [V'] is the derivative of [V] with respect to [t]. *)
Lemma derivative_series_exact
    (res : array) (choice : N) (Omega0 omega : R) :
  Omega0 > 0 -> omega > 0 ->
  0 < omega ^ 2 / Omega0 ^ 3 < 0.1 ->
  wants choice 2 = true ->
  let t := omega ^ 2 / Omega0 ^ 3 in
  let f := 4 * PI / (3 * Omega0 ^ 3) in
  let V := horner volume_coeffs in
  let V' := horner (poly_deriv volume_coeffs) in
  mem (volume res choice Omega0 omega) 1%nat
  = - 3 * f * (V t + t * V' t) / Omega0
  /\ List.length volume_coeffs = 11%nat
  /\ (forall k : nat,
        nth k (poly_deriv volume_coeffs) 0
        = INR (S k) * nth (S k) volume_coeffs 0)
  /\ (forall x : R, derivable_pt_lim V x (V' x)).
Proof.
  intros HO Hom Ht Hw t f V V'.
  split; [| split; [reflexivity | split]].
  - subst t f V V'. rewrite <- regime_key_eq in *.
    rewrite volume_cases. unfold volume_dispatch. cbv zeta.
    rewrite (some_wanted choice) by (now right).
    destruct (Req_dec_T omega 0) as [E | _]; [lra |].
    destruct (Rlt_dec (8 / 27) _) as [L | _]; [lra |].
    destruct (Rlt_dec _ 0.1) as [_ | N]; [| lra].
    unfold volume_series, ret, mem. cbv zeta.
    rewrite Hw, store_if_slot1. unfold utils.M_4PI.
    replace (3 * (Omega0 * (Omega0 * Omega0))) with (3 * Omega0 ^ 3) by ring.
    reflexivity.
  - intros k. apply nth_poly_deriv.
  - intros x. apply horner_derivable.
Qed.

(** ** Sorting *)

Lemma sort_insert_perm (x : R) (l : list R) :
  Permutation (sort_insert x l) (x :: l).
Proof.
  induction l as [| y l IH]; simpl.
  - apply Permutation_refl.
  - destruct (Rle_dec x y).
    + apply Permutation_refl.
    + eapply Permutation_trans; [apply perm_skip, IH | apply perm_swap].
Qed.

Lemma std_sort_perm (l : list R) : Permutation (std_sort l) l.
Proof.
  induction l as [| x l IH]; simpl.
  - apply perm_nil.
  - eapply Permutation_trans; [apply sort_insert_perm | apply perm_skip, IH].
Qed.

Lemma sort_insert_sorted (x : R) (l : list R) :
  StronglySorted Rle l -> StronglySorted Rle (sort_insert x l).
Proof.
  induction 1 as [| y l Hl IH Hy]; simpl.
  - constructor; constructor.
  - destruct (Rle_dec x y) as [Hxy | Hxy].
    + constructor; [constructor; assumption |].
      constructor; [exact Hxy |].
      eapply Forall_impl; [| exact Hy]. intros z Hz. lra.
    + constructor; [exact IH |].
      eapply Permutation_Forall;
        [apply Permutation_sym, sort_insert_perm |].
      constructor; [lra | exact Hy].
Qed.

Lemma std_sort_sorted (l : list R) : StronglySorted Rle (std_sort l).
Proof.
  induction l as [| x l IH]; simpl.
  - constructor.
  - apply sort_insert_sorted, IH.
Qed.

(** On a total order the ascending rearrangement is unique. *)
Lemma sorted_perm_unique (l1 l2 : list R) :
  StronglySorted Rle l1 -> StronglySorted Rle l2 -> Permutation l1 l2 ->
  l1 = l2.
Proof.
  intros H1. revert l2.
  induction H1 as [| a l1 Hl1 IH Ha]; intros l2 H2 HP.
  - apply Permutation_nil in HP. now subst.
  - destruct H2 as [| b l2 Hl2 Hb].
    + apply Permutation_sym, Permutation_nil in HP. discriminate.
    + assert (Hab : a = b).
      { assert (Ia : In a (b :: l2))
          by (eapply Permutation_in; [exact HP | now left]).
        assert (Ib : In b (a :: l1))
          by (eapply Permutation_in;
              [apply Permutation_sym; exact HP | now left]).
        rewrite Forall_forall in Ha, Hb.
        destruct Ia as [E | Ia]; [now symmetry |].
        destruct Ib as [E | Ib]; [exact E |].
        specialize (Ha _ Ib). specialize (Hb _ Ia). lra. }
      subst b. f_equal. apply IH; [exact Hl2 |].
      eapply Permutation_cons_inv. exact HP.
Qed.

Lemma sorted_snoc (l : list R) (z : R) :
  StronglySorted Rle l -> Forall (fun y => y <= z) l ->
  StronglySorted Rle (l ++ [z]).
Proof.
  induction 1 as [| a l Hl IH Ha]; intros Hz; simpl.
  - constructor; constructor.
  - inversion Hz as [| ? ? Haz Hlz]; subst.
    constructor; [apply IH, Hlz |].
    apply Forall_app. split; [exact Ha | constructor; [exact Haz | constructor]].
Qed.

Lemma mirror_sorted (l : list R) :
  StronglySorted Rle l -> StronglySorted Rle (mirror l).
Proof.
  unfold mirror.
  induction 1 as [| a l Hl IH Ha]; simpl.
  - constructor.
  - apply sorted_snoc; [exact IH |].
    rewrite Forall_forall in *. intros y Hy.
    apply in_rev, in_map_iff in Hy. destruct Hy as (z & <- & Hz).
    specialize (Ha _ Hz). lra.
Qed.

Lemma removelast_sorted (l : list R) :
  StronglySorted Rle l -> StronglySorted Rle (removelast l).
Proof.
  induction 1 as [| a l Hl IH Ha]; simpl.
  - constructor.
  - destruct l as [| b l]; [constructor |].
    constructor; [exact IH |].
    rewrite Forall_forall in *. intros y Hy. apply Ha.
    clear - Hy. revert b Hy. induction l as [| c l IHl]; intros b Hy.
    + destruct Hy.
    + simpl in Hy. destruct Hy as [<- | Hy]; [now left |].
      right. apply IHl. exact Hy.
Qed.

Lemma tl_sorted (l : list R) :
  StronglySorted Rle l -> StronglySorted Rle (tl l).
Proof.
  destruct 1; simpl; [constructor | assumption].
Qed.

(** Dropping both ends commutes with mirroring. *)
Lemma mirror_trim (l : list R) :
  mirror (tl (removelast l)) = tl (removelast (mirror l)).
Proof.
  unfold mirror.
  destruct l as [| a l]; [reflexivity |].
  destruct l as [| a' l]; [reflexivity |].
  destruct (exists_last (l := a' :: l)) as (l0 & b & E); [discriminate |].
  rewrite E.
  change (a :: l0 ++ [b]) with ((a :: l0) ++ [b]) at 1.
  rewrite removelast_last.
  change (map Ropp (a :: l0 ++ [b]))
    with (- a :: map Ropp (l0 ++ [b])).
  change (rev (- a :: map Ropp (l0 ++ [b])))
    with (rev (map Ropp (l0 ++ [b])) ++ [- a]).
  rewrite map_app, rev_app_distr.
  change (rev (map Ropp [b])) with [- b].
  change (([- b] ++ rev (map Ropp l0)) ++ [- a])
    with ((- b :: rev (map Ropp l0)) ++ [- a]).
  rewrite removelast_last. reflexivity.
Qed.

(** ** Axis intercepts *)

Lemma push_pairs_app (roots points : list R) :
  push_pairs roots points = points ++ push_pairs roots [].
Proof.
  unfold push_pairs. revert points.
  induction roots as [| r roots IH]; intros points; simpl.
  - now rewrite app_nil_r.
  - destruct (Rlt_dec 0 r).
    + rewrite (IH (points ++ [r; - r])), (IH [r; - r]).
      now rewrite <- app_assoc.
    + apply IH.
Qed.

Lemma push_pairs_cons (r : R) (roots : list R) :
  push_pairs (r :: roots) []
  = (if Rlt_dec 0 r then [r; - r] else []) ++ push_pairs roots [].
Proof.
  unfold push_pairs at 1. simpl. fold (push_pairs roots).
  destruct (Rlt_dec 0 r); [apply push_pairs_app | reflexivity].
Qed.

Lemma push_pairs_In (roots : list R) (x : R) :
  In x (push_pairs roots [])
  <-> exists r, In r roots /\ 0 < r /\ (x = r \/ x = - r).
Proof.
  induction roots as [| r roots IH].
  - simpl. split; [intros [] | intros (r & [] & _)].
  - rewrite push_pairs_cons, in_app_iff, IH. split.
    + intros [Hx | (r' & Hr' & Hpos & Hx)].
      * destruct (Rlt_dec 0 r) as [Hr | _]; [| destruct Hx].
        exists r. split; [now left |]. split; [exact Hr |].
        destruct Hx as [<- | [<- | []]]; auto.
      * exists r'. split; [now right | auto].
    + intros (r' & [<- | Hr'] & Hpos & Hx).
      * left. destruct (Rlt_dec 0 r) as [_ | N]; [| contradiction].
        destruct Hx as [-> | ->]; simpl; auto.
      * right. exists r'. auto.
Qed.

Lemma push_pairs_mirror (roots : list R) :
  Permutation (map Ropp (push_pairs roots [])) (push_pairs roots []).
Proof.
  induction roots as [| r roots IH].
  - apply perm_nil.
  - rewrite push_pairs_cons, map_app.
    apply Permutation_app; [| exact IH].
    destruct (Rlt_dec 0 r); simpl; [| apply perm_nil].
    rewrite Ropp_involutive. apply perm_swap.
Qed.

(** The sorted pushed pairs read the same mirrored. *)
Lemma sorted_pairs_mirror (roots : list R) :
  mirror (std_sort (push_pairs roots [])) = std_sort (push_pairs roots []).
Proof.
  apply sorted_perm_unique.
  - apply mirror_sorted, std_sort_sorted.
  - apply std_sort_sorted.
  - unfold mirror.
    eapply Permutation_trans; [apply Permutation_sym, Permutation_rev |].
    eapply Permutation_trans; [apply Permutation_map, std_sort_perm |].
    eapply Permutation_trans; [apply push_pairs_mirror |].
    apply Permutation_sym, std_sort_perm.
Qed.

Lemma mirror_fixed_symmetric (l : list R) : mirror l = l -> symmetric l.
Proof.
  intros E x Hx. rewrite <- E. unfold mirror.
  apply -> in_rev. apply in_map. exact Hx.
Qed.

Lemma points_on_x_axis_unfold
    (solve_cubic : list R -> list R) (Omega0 omega : R) (trimming : bool) :
  omega <> 0 ->
  let sorted :=
    std_sort (push_pairs (solve_cubic [1; - Omega0; 0; omega * omega / 2]) []) in
  points_on_x_axis solve_cubic [] Omega0 omega trimming
  = if (2 <=? List.length sorted)%nat && trimming
    then tl (removelast sorted) else sorted.
Proof.
  intros Hom. unfold points_on_x_axis, push_pairs.
  destruct (Req_dec_T omega 0) as [E | _]; [contradiction | reflexivity].
Qed.

(** C8.  For every [Omega0 > 0] and [omega > 0], with or without trimming,
    the sequence that [points_on_x_axis] builds in an empty vector is sorted
    ascending and symmetric about zero: with every [x] it holds [-x].  This
    holds whatever roots the cubic solver returns. *)
Theorem C8_intercepts_sorted_symmetric
    (solve_cubic : list R -> list R) (Omega0 omega : R) (trimming : bool) :
  Omega0 > 0 -> omega > 0 ->
  StronglySorted Rle (points_on_x_axis solve_cubic [] Omega0 omega trimming)
  /\ symmetric (points_on_x_axis solve_cubic [] Omega0 omega trimming).
Proof.
  intros _ Hom.
  rewrite points_on_x_axis_unfold by lra. cbv zeta.
  set (roots := solve_cubic _).
  pose proof (std_sort_sorted (push_pairs roots [])) as HS.
  pose proof (sorted_pairs_mirror roots) as HM.
  destruct ((2 <=? _)%nat && trimming).
  - split.
    + apply tl_sorted, removelast_sorted, HS.
    + apply mirror_fixed_symmetric. now rewrite mirror_trim, HM.
  - split; [exact HS | apply mirror_fixed_symmetric, HM].
Qed.

Ltac decide_reals :=
  repeat
    (cbn [push_pairs fold_left std_sort fold_right sort_insert app
          List.length Nat.leb andb removelast tl];
     match goal with
     | |- context [Rlt_dec ?a ?b] => destruct (Rlt_dec a b); try lra
     | |- context [Rle_dec ?a ?b] => destruct (Rle_dec a b); try lra
     | |- context [Req_dec_T ?a ?b] => destruct (Req_dec_T a b); try lra
     end).

Lemma intercepts_13_2_6 :
  points_on_x_axis solver_13_2_6 [] (13 / 2) 6 false = [- 6; - 2; 2; 6].
Proof.
  unfold points_on_x_axis, solver_13_2_6. decide_reals. reflexivity.
Qed.

Lemma intercepts_13_2_6_trimmed :
  points_on_x_axis solver_13_2_6 [] (13 / 2) 6 true = [- 2; 2].
Proof.
  unfold points_on_x_axis, solver_13_2_6. decide_reals. reflexivity.
Qed.

Lemma C8_witness :
  (13 / 2 > 0 /\ 6 > 0)
  /\ StronglySorted Rle [- 2; 2] /\ symmetric [- 2; 2].
Proof.
  assert (H1 : 13 / 2 > 0) by lra.
  assert (H2 : 6 > 0) by lra.
  split; [now split |].
  rewrite <- intercepts_13_2_6_trimmed.
  apply (C8_intercepts_sorted_symmetric solver_13_2_6 (13 / 2) 6 true H1 H2).
Defined.

(** Every element of the untrimmed sequence is a positive root of the
    solver or the opposite of one. *)
Lemma intercepts_In
    (solve_cubic : list R -> list R) (Omega0 omega x : R) :
  omega <> 0 ->
  In x (points_on_x_axis solve_cubic [] Omega0 omega false)
  <-> exists r,
        In r (solve_cubic [1; - Omega0; 0; omega * omega / 2])
        /\ 0 < r /\ (x = r \/ x = - r).
Proof.
  intros Hom. rewrite points_on_x_axis_unfold by exact Hom. cbv zeta.
  rewrite andb_false_r, <- push_pairs_In.
  split; apply Permutation_in;
    [apply std_sort_perm | apply Permutation_sym, std_sort_perm].
Qed.

(** Off the origin, the equipotential [potential_on_x_axis x omega = Omega0]
    is the cubic of the coefficient array read constant term first, in
    [|x|]: [omega^2/2 |x|^3 - Omega0 |x| + 1 = 0]. *)
Lemma potential_level_cubic (Omega0 omega x : R) :
  x <> 0 ->
  potential_on_x_axis x omega = Omega0
  <-> omega * omega / 2 * Rabs x ^ 3 - Omega0 * Rabs x + 1 = 0.
Proof.
  intros Hx. unfold potential_on_x_axis.
  assert (Ha : 0 < Rabs x) by (apply Rabs_pos_lt; exact Hx).
  assert (Hsq : omega * omega * x * x = omega * omega * (Rabs x * Rabs x)).
  { replace (Rabs x * Rabs x) with (Rsqr (Rabs x)) by reflexivity.
    rewrite <- Rsqr_abs. unfold Rsqr. ring. }
  rewrite Hsq. set (y := Rabs x) in *. split; intros H.
  - assert (E : y * (1 / y + omega * omega * (y * y) / 2) = y * Omega0)
      by now rewrite H.
    field_simplify in E; lra.
  - apply (Rmult_eq_reg_l y); [| lra]. field_simplify; lra.
Qed.

Lemma solver_18_exact (x : R) :
  In x (solver_18 [1; - (13 / 2); 0; 6 * 6 / 2])
  <-> utils.cubic [1; - (13 / 2); 0; 6 * 6 / 2] x = 0.
Proof.
  unfold solver_18, utils.cubic. cbn [nth In].
  replace (1 + - (13 / 2) * x + 0 * x ^ 2 + 6 * 6 / 2 * x ^ 3)
    with (18 * ((x - 1 / 2) * (x - 1 / 6) * (x + 2 / 3))) by field.
  split.
  - intros [<- | [<- | [<- | []]]]; field.
  - intros H.
    apply Rmult_integral in H. destruct H as [H | H]; [lra |].
    apply Rmult_integral in H. destruct H as [H | H].
    + apply Rmult_integral in H. destruct H as [H | H].
      * left. lra.
      * right; left. lra.
    + right; right; left. lra.
Qed.

Lemma intercepts_18 :
  points_on_x_axis solver_18 [] (13 / 2) 6 false
  = [- (1 / 2); - (1 / 6); 1 / 6; 1 / 2].
Proof.
  unfold points_on_x_axis, solver_18. decide_reals. reflexivity.
Qed.

(** C7 (amended).  For every [Omega0 > 0] and [omega > 0], when the
    solver returns roots of the cubic of the coefficient array
    [{1, -Omega0, 0, omega^2/2}], every element [x] of the untrimmed
    sequence is a real intersection of the equipotential with the axis:
    [x] is nonzero and [potential_on_x_axis x omega = Omega0], that is
    [omega^2/2 |x|^3 - Omega0 |x| + 1 = 0].  The cubic
    [y^3 - Omega0 y^2 + omega^2/2 = 0] is the one satisfied by the
    reciprocal [y = 1/|x|]. *)
Theorem C7_intercepts_on_equipotential
    (solve_cubic : list R -> list R) (Omega0 omega : R) :
  Omega0 > 0 -> omega > 0 ->
  utils.solve_cubic_sound solve_cubic [1; - Omega0; 0; omega * omega / 2] ->
  forall x,
    In x (points_on_x_axis solve_cubic [] Omega0 omega false) ->
    x <> 0
    /\ potential_on_x_axis x omega = Omega0
    /\ omega ^ 2 / 2 * Rabs x ^ 3 - Omega0 * Rabs x + 1 = 0
    /\ (/ Rabs x) ^ 3 - Omega0 * (/ Rabs x) ^ 2 + omega ^ 2 / 2 = 0.
Proof.
  intros _ Hom Hsound x Hx.
  apply intercepts_In in Hx; [| lra].
  destruct Hx as (r & Hr & Hpos & Hx).
  apply Hsound in Hr. unfold utils.cubic in Hr. cbn [nth] in Hr.
  assert (Habs : Rabs x = r).
  { destruct Hx as [-> | ->].
    - apply Rabs_right; lra.
    - rewrite Rabs_Ropp. apply Rabs_right; lra. }
  assert (Hx0 : x <> 0) by (destruct Hx; lra).
  assert (Hcub : omega * omega / 2 * Rabs x ^ 3 - Omega0 * Rabs x + 1 = 0)
    by (rewrite Habs; lra).
  split; [exact Hx0 |].
  split; [apply potential_level_cubic; assumption |].
  split; [rewrite <- Hcub; field |].
  rewrite Habs in *.
  replace ((/ r) ^ 3 - Omega0 * (/ r) ^ 2 + omega ^ 2 / 2)
    with ((omega * omega / 2 * r ^ 3 - Omega0 * r + 1) / r ^ 3)
    by (field; lra).
  rewrite Hcub. unfold Rdiv. ring.
Qed.

Lemma C7_witness :
  (13 / 2 > 0 /\ 6 > 0
   /\ utils.solve_cubic_sound solver_18 [1; - (13 / 2); 0; 6 * 6 / 2])
  /\ In (- (1 / 2)) [- (1 / 2); - (1 / 6); 1 / 6; 1 / 2]
  /\ - (1 / 2) <> 0
  /\ potential_on_x_axis (- (1 / 2)) 6 = 13 / 2.
Proof.
  assert (H1 : 13 / 2 > 0) by lra.
  assert (H2 : 6 > 0) by lra.
  assert (H3 : utils.solve_cubic_sound solver_18
                 [1; - (13 / 2); 0; 6 * 6 / 2])
    by (intros x Hx; apply solver_18_exact; exact Hx).
  assert (H4 : In (- (1 / 2)) [- (1 / 2); - (1 / 6); 1 / 6; 1 / 2])
    by (left; reflexivity).
  split; [now repeat split |].
  split; [exact H4 |].
  destruct (C7_intercepts_on_equipotential solver_18 (13 / 2) 6 H1 H2 H3
              (- (1 / 2))) as (Hn & Hp & _).
  - rewrite intercepts_18. exact H4.
  - split; assumption.
Defined.

(** Counterexample to C7 for the cubic it names: at [Omega0 = 13/2],
    [omega = 6] the cubic [1 - 13/2 x + 18 x^3] of the coefficient array
    has exactly the real roots [1/2], [1/6] and [-2/3]; the untrimmed
    sequence is [-1/2, -1/6, 1/6, 1/2], and its element [1/2], which lies
    on the equipotential, does not satisfy
    [x^3 - Omega0 x^2 + omega^2/2 = 0]. *)
Lemma C7_counterexample :
  (13 / 2 > 0 /\ 6 > 0
   /\ utils.solve_cubic_sound solver_18 [1; - (13 / 2); 0; 6 * 6 / 2]
   /\ utils.solve_cubic_complete solver_18 [1; - (13 / 2); 0; 6 * 6 / 2])
  /\ In (1 / 2) (points_on_x_axis solver_18 [] (13 / 2) 6 false)
  /\ potential_on_x_axis (1 / 2) 6 = 13 / 2
  /\ (1 / 2) ^ 3 - 13 / 2 * (1 / 2) ^ 2 + 6 ^ 2 / 2 <> 0.
Proof.
  split.
  { repeat split; try lra; intros x Hx; apply solver_18_exact; exact Hx. }
  rewrite intercepts_18.
  split; [right; right; right; left; reflexivity |].
  split; [| lra].
  unfold potential_on_x_axis. rewrite Rabs_right by lra. lra.
Qed.

(** C4, at the failing input [Omega0 = 10], [omega = 0].  With
    [omega == 0] the function returns at once and pushes nothing: an empty
    vector stays empty, so the pair [-1/Omega0, 1/Omega0] is not
    produced. *)
Theorem C4_sphere_intercepts_missing
    (solve_cubic : list R -> list R) (points : list R) (Omega0 : R)
    (trimming : bool) :
  points_on_x_axis solve_cubic points Omega0 0 trimming = points
  /\ points_on_x_axis solve_cubic [] 10 0 trimming = []
  /\ points_on_x_axis solve_cubic [] 10 0 trimming <> [- (1 / 10); 1 / 10].
Proof.
  assert (E : forall pts O,
             points_on_x_axis solve_cubic pts O 0 trimming = pts).
  { intros pts O. unfold points_on_x_axis.
    destruct (Req_dec_T 0 0) as [_ | N]; [reflexivity | now elim N]. }
  rewrite !E. repeat split. discriminate.
Qed.

(** ** The critical point *)

Lemma Rpower_of_cube (b y : R) :
  0 < b -> Rpower (b ^ 3) y = Rpower b (3 * y).
Proof.
  intros Hb. unfold Rpower. rewrite ln_pow by exact Hb.
  f_equal. simpl INR. ring.
Qed.

Lemma Rpower_of_square (w y : R) :
  0 < w -> Rpower (w * w) y = Rpower w (2 * y).
Proof.
  intros Hw. unfold Rpower. rewrite ln_mult by exact Hw.
  f_equal. ring.
Qed.

Lemma Rpower_two (w : R) : 0 < w -> Rpower w 2 = w * w.
Proof.
  intros Hw. change 2 with (INR 2). rewrite Rpower_pow by exact Hw. ring.
Qed.

Lemma cbrt_pos (x : R) : 0 < x -> cbrt x = Rpower x (/ 3).
Proof.
  intros Hx. unfold cbrt.
  destruct (total_order_T x 0) as [[L | E] | G]; [lra | lra | reflexivity].
Qed.

Lemma std_pow_pos (x y : R) : 0 < x -> std_pow x y = Some (Rpower x y).
Proof.
  intros Hx. unfold std_pow.
  destruct (total_order_T x 0) as [[L | E] | G]; [lra | lra | reflexivity].
Qed.

(** For [omega > 0]: [lagrange_point] is [cbrt(omega^2) = omega^(2/3)] and
    [critical_potential] is [1.5 * omega^(2/3)]. *)
Lemma lagrange_point_pos (omega : R) :
  0 < omega -> lagrange_point omega = Some (Rpower omega (2 / 3)).
Proof.
  intros Hom. unfold lagrange_point.
  destruct (Req_dec_T omega 0) as [E | _]; [lra |].
  rewrite cbrt_pos by nra. rewrite Rpower_of_square by exact Hom.
  reflexivity.
Qed.

Lemma critical_potential_pos (omega : R) :
  0 < omega ->
  critical_potential omega = Some (3 * Rpower omega (2 / 3) / 2).
Proof.
  intros Hom. unfold critical_potential.
  destruct (Req_dec_T omega 0) as [E | _]; [lra |].
  now rewrite std_pow_pos by exact Hom.
Qed.

(** The critical potential is the potential at the reciprocal of what
    [lagrange_point] returns. *)
Lemma critical_potential_at_reciprocal (omega : R) :
  0 < omega ->
  critical_potential omega
  = option_map (fun L => potential_on_x_axis (1 / L) omega)
      (lagrange_point omega).
Proof.
  intros Hom.
  rewrite critical_potential_pos, lagrange_point_pos by exact Hom.
  simpl option_map. f_equal.
  set (p := Rpower omega (2 / 3)).
  assert (Hp : 0 < p) by apply exp_pos.
  assert (Hcube : p * p * p = omega * omega).
  { rewrite <- (Rpower_two omega) by exact Hom.
    replace (p * p * p) with (p ^ 3) by ring.
    rewrite <- (Rpower_1 (p ^ 3)) by (apply pow_lt; exact Hp).
    rewrite Rpower_of_cube by exact Hp.
    unfold p. rewrite Rpower_mult. f_equal. field. }
  unfold potential_on_x_axis.
  rewrite Rabs_right by (apply Rle_ge; left; apply Rdiv_lt_0_compat; lra).
  rewrite <- Hcube. field. lra.
Qed.

(** The slope of the potential along the positive axis. *)
Lemma potential_on_x_axis_derivative (omega x : R) :
  0 < x ->
  derivable_pt_lim (fun y => potential_on_x_axis y omega) x
    (axial_derivative x omega).
Proof.
  intros Hx.
  change (fun y => potential_on_x_axis y omega)
    with ((fct_cte 1 / Rabs)
          + ((fct_cte (omega * omega) * id * id) / fct_cte 2))%F.
  replace (axial_derivative x omega)
    with ((0 * Rabs x - 1 * fct_cte 1 x) / Rsqr (Rabs x)
          + (((0 * id x + fct_cte (omega * omega) x * 1) * id x
              + (fct_cte (omega * omega) * id)%F x * 1) * fct_cte 2 x
             - 0 * (fct_cte (omega * omega) * id * id)%F x)
            / Rsqr (fct_cte 2 x)).
  - apply derivable_pt_lim_plus.
    + apply derivable_pt_lim_div;
        [apply derivable_pt_lim_const | apply Rabs_derive_1; exact Hx |].
      rewrite Rabs_right; lra.
    + apply derivable_pt_lim_div;
        [| apply derivable_pt_lim_const | unfold fct_cte; lra].
      apply derivable_pt_lim_mult; [| apply derivable_pt_lim_id].
      apply derivable_pt_lim_mult;
        [apply derivable_pt_lim_const | apply derivable_pt_lim_id].
  - unfold axial_derivative, fct_cte, mult_fct, id, Rsqr.
    rewrite Rabs_right by lra. field. lra.
Qed.

(** C3, at the failing input [omega = 8].  [lagrange_point] returns
    [cbrt(64) = 4] and [critical_potential] returns [1.5 * 8^(2/3) = 6], but
    the potential at
    [x = 4] is [2049/4], not [6], and the slope of the potential at [x = 4]
    is not zero; the potential equals [6] and its slope vanishes at the
    reciprocal [x = 1/4]. *)
Theorem C3_lagrange_point_at_8 :
  lagrange_point 8 = Some 4
  /\ critical_potential 8 = Some 6
  /\ potential_on_x_axis 4 8 = 2049 / 4
  /\ critical_potential 8
     <> option_map (fun L => potential_on_x_axis L 8) (lagrange_point 8)
  /\ axial_derivative 4 8 <> 0
  /\ potential_on_x_axis (1 / 4) 8 = 6
  /\ axial_derivative (1 / 4) 8 = 0.
Proof.
  assert (HL : lagrange_point 8 = Some 4).
  { rewrite lagrange_point_pos by lra. f_equal.
    replace 8 with (2 ^ 3) by lra.
    rewrite Rpower_of_cube by lra.
    replace (3 * (2 / 3)) with 2 by lra.
    rewrite Rpower_two; lra. }
  assert (HC : critical_potential 8 = Some 6).
  { rewrite critical_potential_pos by lra. f_equal.
    replace 8 with (2 ^ 3) by lra.
    rewrite Rpower_of_cube by lra.
    replace (3 * (2 / 3)) with 2 by lra.
    rewrite Rpower_two; lra. }
  assert (HP : potential_on_x_axis 4 8 = 2049 / 4).
  { unfold potential_on_x_axis. rewrite Rabs_right by lra. lra. }
  split; [exact HL |]. split; [exact HC |]. split; [exact HP |].
  split.
  { rewrite HL, HC. simpl option_map. rewrite HP.
    intros E. injection E as E. lra. }
  split; [unfold axial_derivative; lra |].
  split.
  - unfold potential_on_x_axis. rewrite Rabs_right by lra. lra.
  - unfold axial_derivative. lra.
Qed.

(** * Further properties of rot_star *)

(** ** The potential evaluator *)

(** X1.  The potential on the axis is even in the position and in the
    rotation parameter. *)
Theorem X1_potential_even (x omega : R) :
  potential_on_x_axis (- x) omega = potential_on_x_axis x omega
  /\ potential_on_x_axis x (- omega) = potential_on_x_axis x omega.
Proof.
  unfold potential_on_x_axis. rewrite Rabs_Ropp. split; f_equal; field.
Qed.


(** ** The integrators: diagnostics and mask *)

Lemma wants_low_bits (choice bit : N) :
  N.land 3 bit = bit -> wants (N.land choice 3) bit = wants choice bit.
Proof.
  intros Hb. unfold wants. now rewrite <- N.land_assoc, Hb.
Qed.

(** X6.  Only the two low bits of the mask count: the integrators behave
    on [choice] as on [choice & 3]. *)
Theorem X6_mask_low_bits (a : array) (choice : N) (Omega0 omega : R) :
  area_volume a choice Omega0 omega
  = area_volume a (N.land choice 3) Omega0 omega
  /\ volume a choice Omega0 omega
     = volume a (N.land choice 3) Omega0 omega.
Proof.
  rewrite !area_volume_cases, !volume_cases.
  unfold area_volume_dispatch, volume_dispatch,
    area_volume_sphere, volume_sphere, area_volume_series, volume_series,
    area_volume_integrated, volume_integrated.
  rewrite !(wants_low_bits choice 1), !(wants_low_bits choice 2)
    by reflexivity.
  split; reflexivity.
Qed.

(** ** The Runge-Kutta loops *)

Ltac rk_step :=
  cbv beta iota zeta delta
    [area_volume_step volume_step store2 Nat.eqb andb
     rk_v rk_s rk_acc1 rk_acc2 rk_k].

Lemma area_step_track (b1 b2 b1' b2' : bool) (t dv : R) (sa sb : rk_state) :
  same_track sa sb ->
  same_track (area_volume_step b1 b2 t dv sa)
             (area_volume_step b1' b2' t dv sb).
Proof.
  destruct sa as [v s A V k], sb as [v' s' A' V' k'].
  unfold same_track at 1. cbv beta iota delta [rk_v rk_s].
  intros (-> & ->). unfold same_track.
  destruct b1, b2, b1', b2'; rk_step; split; reflexivity.
Qed.

Lemma volume_step_track (b1 b2 b1' b2' : bool) (t dv : R) (sa sb : rk_state) :
  same_track sa sb ->
  same_track (volume_step b1 b2 t dv sa) (volume_step b1' b2' t dv sb).
Proof.
  destruct sa as [v s A V k], sb as [v' s' A' V' k'].
  unfold same_track at 1. cbv beta iota delta [rk_v rk_s].
  intros (-> & ->). unfold same_track.
  destruct b1, b2, b1', b2'; rk_step; split; reflexivity.
Qed.

Lemma area_step_acc1 (b2 b2' : bool) (t dv : R) (sa sb : rk_state) :
  same_acc1 sa sb ->
  same_acc1 (area_volume_step true b2 t dv sa)
            (area_volume_step true b2' t dv sb).
Proof.
  intros [Ht Ha]. split; [now apply area_step_track |].
  destruct sa as [v s A V k], sb as [v' s' A' V' k'].
  destruct Ht as [Hv Hs]. cbv beta iota delta [rk_v rk_s rk_acc1] in *.
  subst v' s' A'.
  destruct b2, b2'; rk_step; reflexivity.
Qed.

Lemma area_step_acc2 (b1 b1' : bool) (t dv : R) (sa sb : rk_state) :
  same_acc2 sa sb ->
  same_acc2 (area_volume_step b1 true t dv sa)
            (area_volume_step b1' true t dv sb).
Proof.
  intros [Ht Ha]. split; [now apply area_step_track |].
  destruct sa as [v s A V k], sb as [v' s' A' V' k'].
  destruct Ht as [Hv Hs]. cbv beta iota delta [rk_v rk_s rk_acc2] in *.
  subst v' s' V'.
  destruct b1, b1'; rk_step; reflexivity.
Qed.

Lemma volume_step_acc1 (b2 b2' : bool) (t dv : R) (sa sb : rk_state) :
  same_acc1 sa sb ->
  same_acc1 (volume_step true b2 t dv sa) (volume_step true b2' t dv sb).
Proof.
  intros [Ht Ha]. split; [now apply volume_step_track |].
  destruct sa as [v s A V k], sb as [v' s' A' V' k'].
  destruct Ht as [Hv Hs]. cbv beta iota delta [rk_v rk_s rk_acc1] in *.
  subst v' s' A'.
  destruct b2, b2'; rk_step; reflexivity.
Qed.

Lemma volume_step_acc2 (b1 b1' : bool) (t dv : R) (sa sb : rk_state) :
  same_acc2 sa sb ->
  same_acc2 (volume_step b1 true t dv sa) (volume_step b1' true t dv sb).
Proof.
  intros [Ht Ha]. split; [now apply volume_step_track |].
  destruct sa as [v s A V k], sb as [v' s' A' V' k'].
  destruct Ht as [Hv Hs]. cbv beta iota delta [rk_v rk_s rk_acc2] in *.
  subst v' s' V'.
  destruct b1, b1'; rk_step; reflexivity.
Qed.

(** Two loops whose bodies keep a relation keep it for any number of
    iterations. *)
Lemma iter_related (Rel : rk_state -> rk_state -> Prop)
    (f g : rk_state -> rk_state) (n : N) (x y : rk_state) :
  (forall a b, Rel a b -> Rel (f a) (g b)) ->
  Rel x y -> Rel (N.iter n f x) (N.iter n g y).
Proof.
  intros Hstep Hxy. induction n as [| n IH] using N.peano_ind.
  - exact Hxy.
  - rewrite !N.iter_succ. apply Hstep, IH.
Qed.

Lemma area_rk_acc1 (b2 b2' : bool) (t : R) :
  rk_acc1 (area_volume_rk true b2 t) = rk_acc1 (area_volume_rk true b2' t).
Proof.
  unfold area_volume_rk.
  apply (iter_related same_acc1); [apply area_step_acc1 | repeat split].
Qed.

Lemma area_rk_acc2 (b1 b1' : bool) (t : R) :
  rk_acc2 (area_volume_rk b1 true t) = rk_acc2 (area_volume_rk b1' true t).
Proof.
  unfold area_volume_rk.
  apply (iter_related same_acc2); [apply area_step_acc2 | repeat split].
Qed.

Lemma volume_rk_acc1 (b2 b2' : bool) (t : R) :
  rk_acc1 (volume_rk true b2 t) = rk_acc1 (volume_rk true b2' t).
Proof.
  unfold volume_rk.
  apply (iter_related same_acc1); [apply volume_step_acc1 | repeat split].
Qed.

Lemma volume_rk_acc2 (b1 b1' : bool) (t : R) :
  rk_acc2 (volume_rk b1 true t) = rk_acc2 (volume_rk b1' true t).
Proof.
  unfold volume_rk.
  apply (iter_related same_acc2); [apply volume_step_acc2 | repeat split].
Qed.

(** X7.  What an integrator writes into a requested slot does not depend
    on whether the other output is requested too: with any mask that has
    the bit set, the slot holds the value it holds when that output alone
    is asked for.  This holds in every regime, the Runge-Kutta loop
    included. *)
Theorem X7_outputs_independent (a : array) (choice : N) (Omega0 omega : R) :
  (wants choice 1 = true ->
   mem (area_volume a choice Omega0 omega) 0%nat
   = mem (area_volume a 1 Omega0 omega) 0%nat
   /\ mem (volume a choice Omega0 omega) 0%nat
      = mem (volume a 1 Omega0 omega) 0%nat)
  /\ (wants choice 2 = true ->
      mem (area_volume a choice Omega0 omega) 1%nat
      = mem (area_volume a 2 Omega0 omega) 1%nat
      /\ mem (volume a choice Omega0 omega) 1%nat
         = mem (volume a 2 Omega0 omega) 1%nat).
Proof.
  rewrite !area_volume_cases, !volume_cases.
  unfold area_volume_dispatch, volume_dispatch,
    area_volume_sphere, volume_sphere, area_volume_series, volume_series,
    area_volume_integrated, volume_integrated.
  cbv zeta.
  change (wants 1 1) with true. change (wants 1 2) with false.
  change (wants 2 1) with false. change (wants 2 2) with true.
  cbn [negb andb].
  set (t := omega * omega / (Omega0 * (Omega0 * Omega0))).
  split; intros Hw; rewrite Hw; rewrite ?andb_false_r; cbn [negb andb].
  - pose proof (area_rk_acc1 (wants choice 2) false t) as Ea.
    pose proof (volume_rk_acc1 (wants choice 2) false t) as Ev.
    set (A1 := area_volume_rk true (wants choice 2) t) in *.
    set (A0 := area_volume_rk true false t) in *.
    set (V1 := volume_rk true (wants choice 2) t) in *.
    set (V0 := volume_rk true false t) in *.
    clearbody A1 A0 V1 V0.
    destruct (Req_dec_T omega 0);
      [| destruct (Rlt_dec (8 / 27) t); [| destruct (Rlt_dec t 0.1)]];
      unfold ret, fail, mem; rewrite ?store_if_slot0, ?Ea, ?Ev;
      split; reflexivity.
  - pose proof (area_rk_acc2 (wants choice 1) false t) as Ea.
    pose proof (volume_rk_acc2 (wants choice 1) false t) as Ev.
    set (A1 := area_volume_rk (wants choice 1) true t) in *.
    set (A0 := area_volume_rk false true t) in *.
    set (V1 := volume_rk (wants choice 1) true t) in *.
    set (V0 := volume_rk false true t) in *.
    clearbody A1 A0 V1 V0.
    destruct (Req_dec_T omega 0);
      [| destruct (Rlt_dec (8 / 27) t); [| destruct (Rlt_dec t 0.1)]];
      unfold ret, fail, mem; rewrite ?store_if_slot1, ?Ea, ?Ev;
      split; reflexivity.
Qed.

Lemma X7_witness :
  wants 3 1 = true
  /\ mem (area_volume (fun _ => 0) 3 2 1) 0%nat
     = mem (area_volume (fun _ => 0) 1 2 1) 0%nat.
Proof.
  split; [reflexivity |].
  destruct (X7_outputs_independent (fun _ => 0) 3 2 1) as [H1 _].
  apply H1. reflexivity.
Defined.

Lemma area_step_v (b1 b2 : bool) (t dv : R) (st : rk_state) :
  rk_v (area_volume_step b1 b2 t dv st) = rk_v st - dv.
Proof.
  destruct st as [v s A V k]. destruct b1, b2; rk_step; reflexivity.
Qed.

Lemma volume_step_v (b1 b2 : bool) (t dv : R) (st : rk_state) :
  rk_v (volume_step b1 b2 t dv st) = rk_v st - dv.
Proof.
  destruct st as [v s A V k]. destruct b1, b2; rk_step; reflexivity.
Qed.

Lemma iter_v (f : rk_state -> rk_state) (dv : R) (n : N) :
  (forall st, rk_v (f st) = rk_v st - dv) ->
  rk_v (N.iter n f rk_init) = 1 - IZR (Z.of_N n) * dv.
Proof.
  intros Hf. induction n as [| n IH] using N.peano_ind.
  - simpl. ring.
  - rewrite N.iter_succ, Hf, IH, N2Z.inj_succ, succ_IZR. ring.
Qed.

Lemma dv_step_total : IZR (Z.of_N m) * dv_step = 1.
Proof.
  unfold dv_step. change (Z.of_N m) with 65536%Z. field.
Qed.

(** X8.  Both Runge-Kutta loops move [v] down from the pole in equal
    steps: after [n] iterations [v = 1 - n * dv], and after the [m = 65536]
    iterations of a call [v] is exactly [0], the equator. *)
Theorem X8_loops_end_at_equator (b1 b2 : bool) (t : R) :
  (forall n : N,
      rk_v (N.iter n (area_volume_step b1 b2 t dv_step) rk_init)
      = 1 - IZR (Z.of_N n) * dv_step
      /\ rk_v (N.iter n (volume_step b1 b2 t dv_step) rk_init)
         = 1 - IZR (Z.of_N n) * dv_step)
  /\ rk_v (area_volume_rk b1 b2 t) = 0
  /\ rk_v (volume_rk b1 b2 t) = 0.
Proof.
  assert (Ha : forall n,
             rk_v (N.iter n (area_volume_step b1 b2 t dv_step) rk_init)
             = 1 - IZR (Z.of_N n) * dv_step)
    by (intros n; apply iter_v; intros st; apply area_step_v).
  assert (Hv : forall n,
             rk_v (N.iter n (volume_step b1 b2 t dv_step) rk_init)
             = 1 - IZR (Z.of_N n) * dv_step)
    by (intros n; apply iter_v; intros st; apply volume_step_v).
  split; [intros n; split; [apply Ha | apply Hv] |].
  unfold area_volume_rk, volume_rk.
  rewrite (Ha m), (Hv m), dv_step_total. split; ring.
Qed.

(** * Further properties of the axis-intercept solver *)

Lemma push_pairs_length_even (roots : list R) :
  Nat.Even (List.length (push_pairs roots [])).
Proof.
  induction roots as [| r roots IH].
  - exists 0%nat. reflexivity.
  - rewrite push_pairs_cons, length_app.
    destruct IH as [k Hk]. rewrite Hk.
    destruct (Rlt_dec 0 r); simpl List.length.
    + exists (S k). lia.
    + exists k. lia.
Qed.

Lemma std_sort_length (l : list R) :
  List.length (std_sort l) = List.length l.
Proof. apply Permutation_length, std_sort_perm. Qed.

Lemma trim_length (l : list R) :
  List.length (tl (removelast l)) = (List.length l - 2)%nat.
Proof.
  destruct l as [| a l]; [reflexivity |].
  destruct l as [| a' l]; [reflexivity |].
  destruct (exists_last (l := a' :: l)) as (l0 & b & E); [discriminate |].
  rewrite E. change (a :: l0 ++ [b]) with ((a :: l0) ++ [b]).
  rewrite removelast_last, length_app. simpl. lia.
Qed.

(** X12.  Starting from an empty vector, [points_on_x_axis] returns an even
    number of points, with or without trimming, whatever the solver
    returns and for every [Omega0] and [omega]. *)
Theorem X12_even_number_of_points
    (solve_cubic : list R -> list R) (Omega0 omega : R) (trimming : bool) :
  Nat.Even (List.length (points_on_x_axis solve_cubic [] Omega0 omega trimming)).
Proof.
  destruct (Req_dec_T omega 0) as [E | Hom].
  - unfold points_on_x_axis.
    destruct (Req_dec_T omega 0) as [_ | N]; [| contradiction].
    exists 0%nat. reflexivity.
  - rewrite points_on_x_axis_unfold by exact Hom. cbv zeta.
    set (roots := solve_cubic _).
    pose proof (push_pairs_length_even roots) as [k Hk].
    rewrite <- std_sort_length in Hk.
    destruct ((2 <=? _)%nat && trimming).
    + rewrite trim_length, Hk. exists (k - 1)%nat. lia.
    + exists k. exact Hk.
Qed.

Lemma sorted_before_last (l : list R) (b : R) :
  StronglySorted Rle (l ++ [b]) -> Forall (fun x => x <= b) l.
Proof.
  induction l as [| a l IH]; intros HS; [constructor |].
  simpl in HS. inversion HS as [| ? ? Hl Ha]; subst.
  constructor; [| apply IH, Hl].
  rewrite Forall_forall in Ha. apply Ha, in_or_app. right. now left.
Qed.

Lemma pairs_nonzero (roots : list R) (x : R) :
  In x (std_sort (push_pairs roots [])) -> x <> 0.
Proof.
  intros Hx.
  apply (Permutation_in _ (std_sort_perm _)) in Hx.
  apply push_pairs_In in Hx. destruct Hx as (r & _ & Hr & [-> | ->]); lra.
Qed.

(** X13.  For [omega != 0] and an empty vector on entry, trimming removes
    exactly the outermost pair: either there is no point at all, with or
    without trimming, or the untrimmed sequence is [-b], then the trimmed
    sequence, then [b], where [b > 0] is the largest point and every
    trimmed point lies between [-b] and [b]. *)
Theorem X13_trimming_drops_outer_pair
    (solve_cubic : list R -> list R) (Omega0 omega : R) :
  omega <> 0 ->
  let all_points := points_on_x_axis solve_cubic [] Omega0 omega false in
  let trimmed := points_on_x_axis solve_cubic [] Omega0 omega true in
  (all_points = [] /\ trimmed = [])
  \/ (exists b, 0 < b
        /\ all_points = - b :: trimmed ++ [b]
        /\ Forall (fun x => - b <= x <= b) trimmed).
Proof.
  intros Hom. cbv zeta.
  rewrite !points_on_x_axis_unfold by exact Hom. cbv zeta.
  set (roots := solve_cubic _).
  pose proof (std_sort_sorted (push_pairs roots [])) as HS.
  pose proof (sorted_pairs_mirror roots) as HM.
  pose proof (pairs_nonzero roots) as HN.
  rewrite andb_false_r, andb_true_r.
  destruct (std_sort (push_pairs roots [])) as [| a l] eqn:EL.
  - left. split; reflexivity.
  - right.
    destruct l as [| a' l].
    { unfold mirror in HM. simpl in HM. injection HM as HM.
      exfalso. apply (HN a); [now left | lra]. }
    destruct (exists_last (l := a' :: l)) as (l0 & b & E); [discriminate |].
    rewrite E in *. clear E.
    assert (Hab : a = - b).
    { unfold mirror in HM.
      change (map Ropp (a :: l0 ++ [b])) with (- a :: map Ropp (l0 ++ [b])) in HM.
      change (rev (- a :: map Ropp (l0 ++ [b])))
        with (rev (map Ropp (l0 ++ [b])) ++ [- a]) in HM.
      rewrite map_app, rev_app_distr in HM. simpl in HM.
      injection HM as HM _. lra. }
    assert (Hle : Forall (fun x => a <= x) (l0 ++ [b]))
      by (inversion HS; assumption).
    assert (Hbig : Forall (fun x => x <= b) l0).
    { apply sorted_before_last. inversion HS; assumption. }
    assert (Hb : 0 < b).
    { assert (a <= b).
      { rewrite Forall_forall in Hle. apply Hle, in_or_app. right. now left. }
      assert (b <> 0).
      { apply HN. right. apply in_or_app. right. now left. }
      lra. }
    exists b. split; [exact Hb |].
    assert (Hlen : (2 <=? List.length (a :: l0 ++ [b]))%nat = true).
    { apply Nat.leb_le. simpl. rewrite length_app. simpl. lia. }
    rewrite Hlen.
    change (a :: l0 ++ [b]) with ((a :: l0) ++ [b]).
    rewrite removelast_last. simpl tl. subst a.
    split; [reflexivity |].
    rewrite Forall_forall in *. intros x Hx. split.
    + apply Hle, in_or_app. now left.
    + apply Hbig, Hx.
Qed.

Lemma X13_witness :
  6 <> 0
  /\ points_on_x_axis solver_13_2_6 [] (13 / 2) 6 false
     = - 6 :: points_on_x_axis solver_13_2_6 [] (13 / 2) 6 true ++ [6].
Proof.
  assert (H6 : 6 <> 0) by lra.
  split; [exact H6 |].
  destruct (X13_trimming_drops_outer_pair solver_13_2_6 (13 / 2) 6 H6)
    as [[E _] | (b & Hb & E & _)].
  - rewrite intercepts_13_2_6 in E. discriminate.
  - pose proof E as E'. rewrite intercepts_13_2_6 in E'.
    injection E' as Hb' _.
    assert (E6 : b = 6) by lra. subst b. exact E.
Defined.

(** X14.  The vector is appended to, never cleared: without trimming, the
    sequence returned for a vector that already holds [points] is a
    rearrangement of [points] together with what the call returns for an
    empty vector, so every entry present on entry is still present on
    return; for [omega != 0] it is sorted as a whole. *)
Theorem X14_vector_not_cleared
    (solve_cubic : list R -> list R) (points : list R) (Omega0 omega : R) :
  Permutation
    (points_on_x_axis solve_cubic points Omega0 omega false)
    (points ++ points_on_x_axis solve_cubic [] Omega0 omega false)
  /\ (forall x, In x points ->
        In x (points_on_x_axis solve_cubic points Omega0 omega false))
  /\ (omega <> 0 ->
      StronglySorted Rle
        (points_on_x_axis solve_cubic points Omega0 omega false)).
Proof.
  assert (HP : Permutation
            (points_on_x_axis solve_cubic points Omega0 omega false)
            (points ++ points_on_x_axis solve_cubic [] Omega0 omega false)).
  { unfold points_on_x_axis.
    destruct (Req_dec_T omega 0) as [_ | _].
    - rewrite app_nil_r. apply Permutation_refl.
    - cbv zeta. rewrite !andb_false_r.
      fold (push_pairs (solve_cubic [1; - Omega0; 0; omega * omega / 2]) points).
      fold (push_pairs (solve_cubic [1; - Omega0; 0; omega * omega / 2]) []).
      eapply Permutation_trans; [apply std_sort_perm |].
      rewrite push_pairs_app. apply Permutation_app_head.
      apply Permutation_sym, std_sort_perm. }
  split; [exact HP |]. split.
  - intros x Hx.
    eapply Permutation_in; [apply Permutation_sym; exact HP |].
    apply in_or_app. now left.
  - intros Hom. unfold points_on_x_axis.
    destruct (Req_dec_T omega 0) as [E | _]; [contradiction |].
    cbv zeta. rewrite andb_false_r. apply std_sort_sorted.
Qed.

Lemma X14_witness :
  6 <> 0
  /\ StronglySorted Rle (points_on_x_axis solver_13_2_6 [1] (13 / 2) 6 false)
  /\ In 1 (points_on_x_axis solver_13_2_6 [1] (13 / 2) 6 false).
Proof.
  assert (H6 : 6 <> 0) by lra.
  destruct (X14_vector_not_cleared solver_13_2_6 [1] (13 / 2) 6)
    as (_ & Hin & Hs).
  split; [exact H6 |]. split; [apply Hs, H6 | apply Hin; now left].
Defined.

(** X15.  For [omega != 0] and an empty vector on entry: when the solver
    returns no strictly positive root, the result is empty, with or without
    trimming; and when it returns a strictly positive root [r], both [r]
    and [-r] are in the untrimmed result. *)
Theorem X15_no_positive_root_no_point
    (solve_cubic : list R -> list R) (Omega0 omega : R) (trimming : bool) :
  omega <> 0 ->
  ((forall r, In r (solve_cubic [1; - Omega0; 0; omega * omega / 2]) -> r <= 0) ->
   points_on_x_axis solve_cubic [] Omega0 omega trimming = [])
  /\ (forall r,
        In r (solve_cubic [1; - Omega0; 0; omega * omega / 2]) -> 0 < r ->
        In r (points_on_x_axis solve_cubic [] Omega0 omega false)
        /\ In (- r) (points_on_x_axis solve_cubic [] Omega0 omega false)).
Proof.
  intros Hom. split.
  - intros Hneg. rewrite points_on_x_axis_unfold by exact Hom. cbv zeta.
    set (roots := solve_cubic _) in *.
    assert (E : push_pairs roots [] = []).
    { destruct (push_pairs roots []) as [| x l] eqn:EP; [reflexivity |].
      assert (Hx : In x (push_pairs roots [])) by (rewrite EP; now left).
      apply push_pairs_In in Hx. destruct Hx as (r & Hr & Hpos & _).
      specialize (Hneg r Hr). lra. }
    rewrite E. reflexivity.
  - intros r Hr Hpos.
    split; apply intercepts_In; try exact Hom; exists r; auto.
Qed.

Lemma X15_witness :
  (6 <> 0 /\ In 2 (solver_13_2_6 [1; - (13 / 2); 0; 6 * 6 / 2]) /\ 0 < 2)
  /\ In 2 (points_on_x_axis solver_13_2_6 [] (13 / 2) 6 false)
  /\ In (- 2) (points_on_x_axis solver_13_2_6 [] (13 / 2) 6 false).
Proof.
  assert (H6 : 6 <> 0) by lra.
  assert (Hin : In 2 (solver_13_2_6 [1; - (13 / 2); 0; 6 * 6 / 2]))
    by (left; reflexivity).
  assert (H2 : 0 < 2) by lra.
  split; [now repeat split |].
  destruct (X15_no_positive_root_no_point solver_13_2_6 (13 / 2) 6 false H6)
    as [_ H].
  apply (H 2 Hin H2).
Defined.

(** X16.  For [omega != 0], an empty vector on entry and a solver that
    returns exactly the real roots of the cubic of the coefficient array
    [{1, -Omega0, 0, omega^2/2}], [1 - Omega0 x + omega^2/2 x^3], the
    untrimmed result holds exactly the points of the axis that lie on the
    equipotential: the nonzero [x] with
    [potential_on_x_axis x omega = Omega0], and nothing else. *)
Theorem X16_exactly_the_equipotential_points
    (solve_cubic : list R -> list R) (Omega0 omega : R) :
  omega <> 0 ->
  utils.solve_cubic_sound solve_cubic [1; - Omega0; 0; omega * omega / 2] ->
  utils.solve_cubic_complete solve_cubic [1; - Omega0; 0; omega * omega / 2] ->
  forall x,
    In x (points_on_x_axis solve_cubic [] Omega0 omega false)
    <-> x <> 0 /\ potential_on_x_axis x omega = Omega0.
Proof.
  intros Hom Hsound Hcomplete x.
  rewrite intercepts_In by exact Hom. split.
  - intros (r & Hr & Hpos & Hx).
    assert (Habs : Rabs x = r).
    { destruct Hx as [-> | ->].
      - apply Rabs_right; lra.
      - rewrite Rabs_Ropp. apply Rabs_right; lra. }
    assert (Hx0 : x <> 0) by (destruct Hx; lra).
    split; [exact Hx0 |].
    apply potential_level_cubic; [exact Hx0 |].
    apply Hsound in Hr. unfold utils.cubic in Hr. cbn [nth] in Hr.
    rewrite Habs. lra.
  - intros [Hx Hlevel]. exists (Rabs x).
    apply potential_level_cubic in Hlevel; [| exact Hx].
    split.
    + apply Hcomplete. unfold utils.cubic. cbn [nth]. lra.
    + split; [apply Rabs_pos_lt, Hx |].
      unfold Rabs. destruct (Rcase_abs x); lra.
Qed.

Lemma X16_witness :
  (6 <> 0
   /\ utils.solve_cubic_sound solver_18 [1; - (13 / 2); 0; 6 * 6 / 2]
   /\ utils.solve_cubic_complete solver_18 [1; - (13 / 2); 0; 6 * 6 / 2])
  /\ (In (- (1 / 6)) (points_on_x_axis solver_18 [] (13 / 2) 6 false)
      <-> - (1 / 6) <> 0 /\ potential_on_x_axis (- (1 / 6)) 6 = 13 / 2).
Proof.
  assert (H6 : 6 <> 0) by lra.
  assert (Hs : utils.solve_cubic_sound solver_18
                 [1; - (13 / 2); 0; 6 * 6 / 2])
    by (intros x Hx; apply solver_18_exact; exact Hx).
  assert (Hc : utils.solve_cubic_complete solver_18
                 [1; - (13 / 2); 0; 6 * 6 / 2])
    by (intros x Hx; apply solver_18_exact; exact Hx).
  split; [now repeat split |].
  apply (X16_exactly_the_equipotential_points solver_18 (13 / 2) 6 H6 Hs Hc).
Defined.

(** * The widget table *)

Section WidgetTableFacts.

Variables (M B : N) (SUCCESS : Z) (junk : gui.pointer).

Local Notation hash := (gui.gui_widget_hash M B).
Local Notation lookup := (gui.gui_widget_lookup M B).
Local Notation add := (gui.gui_widget_add M B SUCCESS junk).

Lemma c_str_idem (s : string) : gui.c_str (gui.c_str s) = gui.c_str s.
Proof.
  induction s as [| c s IH]; [reflexivity |]. simpl.
  destruct (N.eqb (N_of_ascii c) 0) eqn:E; [reflexivity |].
  simpl. now rewrite E, IH.
Qed.

Lemma hash_loop_c_str (s : string) (h : N) :
  gui.hash_loop M h (gui.c_str s) = gui.hash_loop M h s.
Proof.
  revert h. induction s as [| c s IH]; intros h; [reflexivity |]. simpl.
  destruct (N.eqb (N_of_ascii c) 0) eqn:E; [reflexivity |].
  simpl. now rewrite E, IH.
Qed.

Lemma hash_c_str (s : string) : hash (gui.c_str s) = hash s.
Proof. unfold gui.gui_widget_hash. now rewrite hash_loop_c_str. Qed.

Lemma strcmp_eq_true (a b : string) :
  gui.strcmp_eq a b = true <-> gui.c_str a = gui.c_str b.
Proof. unfold gui.strcmp_eq. apply String.eqb_eq. Qed.

Lemma strcmp_eq_c_str_l (a b : string) :
  gui.strcmp_eq (gui.c_str a) b = gui.strcmp_eq a b.
Proof. unfold gui.strcmp_eq. now rewrite c_str_idem. Qed.

Lemma strcmp_eq_c_str_r (a b : string) :
  gui.strcmp_eq a (gui.c_str b) = gui.strcmp_eq a b.
Proof. unfold gui.strcmp_eq. now rewrite c_str_idem. Qed.

Lemma strcmp_eq_hash (a b : string) :
  gui.strcmp_eq a b = true -> hash a = hash b.
Proof.
  intros E. apply strcmp_eq_true in E.
  now rewrite <- (hash_c_str a), <- (hash_c_str b), E.
Qed.

(** The chain search sees its key only as a C string. *)
Lemma chain_find_key (k k' : string) (l : list gui.GUI_widget) :
  gui.c_str k = gui.c_str k' -> gui.chain_find k l = gui.chain_find k' l.
Proof.
  intros E. induction l as [| w l IH]; [reflexivity |]. simpl.
  destruct (gui.name w) as [n |]; [| reflexivity].
  unfold gui.strcmp_eq. now rewrite E, IH.
Qed.

Lemma chain_find_none (k : string) (l : list gui.GUI_widget) :
  gui.chain_find k l = gui.Done None ->
  forall w n, In w l -> gui.name w = Some n -> gui.strcmp_eq n k = false.
Proof.
  induction l as [| w0 l IH]; intros Hf w n Hin Hn; [destruct Hin |].
  simpl in Hf. destruct (gui.name w0) as [n0 |] eqn:E0; [| discriminate].
  destruct (gui.strcmp_eq n0 k) eqn:Es; [discriminate |].
  destruct Hin as [<- | Hin].
  - rewrite E0 in Hn. now injection Hn as <-.
  - now apply (IH Hf w n).
Qed.

Lemma chain_find_some (k : string) (l : list gui.GUI_widget) (w : gui.GUI_widget) :
  gui.chain_find k l = gui.Done (Some w) ->
  In w l /\ exists n, gui.name w = Some n /\ gui.strcmp_eq n k = true.
Proof.
  induction l as [| w0 l IH]; intros Hf; [discriminate |].
  simpl in Hf. destruct (gui.name w0) as [n0 |] eqn:E0; [| discriminate].
  destruct (gui.strcmp_eq n0 k) eqn:Es.
  - injection Hf as <-. split; [now left | exists n0; now split].
  - destruct (IH Hf) as [Hin Hn]. split; [now right | exact Hn].
Qed.

Lemma chain_find_defined (k : string) (l : list gui.GUI_widget) :
  (forall w, In w l -> gui.name w <> None) ->
  gui.chain_find k l <> gui.Undefined.
Proof.
  induction l as [| w0 l IH]; intros Hn; [discriminate |]. simpl.
  destruct (gui.name w0) as [n0 |] eqn:E0.
  - destruct (gui.strcmp_eq n0 k); [discriminate |].
    apply IH. intros w Hw. apply Hn. now right.
  - exfalso. apply (Hn w0); [now left | exact E0].
Qed.

Lemma set_bucket_same (wt : gui.GUI_widget_table) (i : N) (l : list gui.GUI_widget) :
  gui.set_bucket wt i l i = l.
Proof. unfold gui.set_bucket. now rewrite N.eqb_refl. Qed.

Lemma set_bucket_other (wt : gui.GUI_widget_table) (i j : N) (l : list gui.GUI_widget) :
  j <> i -> gui.set_bucket wt i l j = wt j.
Proof.
  intros H. unfold gui.set_bucket.
  destruct (N.eqb_spec j i); [contradiction | reflexivity].
Qed.

(** What [gui_widget_add] does, by the state of the chain of its name. *)
Lemma add_cases (name_ : string) (gtk_ : gui.pointer) (aux_ type_ : Z)
    (par_ dep_ : gui.pointer) (wt : gui.GUI_widget_table) :
  gtk_ <> gui.NULL ->
  add name_ gtk_ aux_ type_ par_ dep_ wt
  = match lookup wt name_ with
    | gui.Undefined => gui.Undefined
    | gui.Done (Some _) => gui.Done (SUCCESS, wt)
    | gui.Done None =>
        gui.Done
          (SUCCESS,
           gui.set_bucket wt (hash name_)
             (widget_of name_ gtk_ aux_ type_ par_ dep_ :: wt (hash name_)))
    end.
Proof.
  intros Hg. unfold gui.gui_widget_add, gui.gui_widget_lookup.
  destruct (N.eqb_spec gtk_ gui.NULL) as [E | _]; [contradiction |].
  unfold gui.gui_widget_hookup, gui.gui_widget_commit, gui.strdup.
  cbn [gui.name]. cbv zeta. rewrite hash_c_str.
  rewrite (chain_find_key (gui.c_str name_) name_) by apply c_str_idem.
  destruct (gui.chain_find name_ (wt (hash name_))) as [[w |] |];
    reflexivity.
Qed.

(** X17.  With at least one bucket, the hash of every name is a valid
    bucket index, and two names that [strcmp] finds equal have the same
    hash. *)
Theorem X17_hash_in_range (a b : string) :
  (0 < B)%N ->
  (hash a < B)%N
  /\ (gui.strcmp_eq a b = true -> hash a = hash b).
Proof.
  intros HB. split.
  - unfold gui.gui_widget_hash. apply N.mod_lt. lia.
  - apply strcmp_eq_hash.
Qed.

(** X18.  Adding a widget under a name the table does not hold yet, with a
    non-NULL GTK widget, returns [SUCCESS], and a lookup of that name in the
    new table returns the widget with exactly the fields given. *)
Theorem X18_add_then_lookup (name_ : string) (gtk_ : gui.pointer)
    (aux_ type_ : Z) (par_ dep_ : gui.pointer) (wt : gui.GUI_widget_table) :
  gtk_ <> gui.NULL ->
  lookup wt name_ = gui.Done None ->
  exists wt',
    add name_ gtk_ aux_ type_ par_ dep_ wt = gui.Done (SUCCESS, wt')
    /\ lookup wt' name_
       = gui.Done (Some (widget_of name_ gtk_ aux_ type_ par_ dep_)).
Proof.
  intros Hg Hl. rewrite add_cases by exact Hg. rewrite Hl.
  eexists. split; [reflexivity |].
  unfold gui.gui_widget_lookup. cbv zeta. rewrite set_bucket_same.
  simpl. now rewrite strcmp_eq_c_str_l, (proj2 (strcmp_eq_true _ _) eq_refl).
Qed.

(** X19.  Adding a widget under a name the table already holds changes
    nothing and still returns [SUCCESS]: the first widget committed under a
    name stays the one that lookups return. *)
Theorem X19_first_commit_wins (name_ : string) (gtk_ : gui.pointer)
    (aux_ type_ : Z) (par_ dep_ : gui.pointer) (wt : gui.GUI_widget_table)
    (w0 : gui.GUI_widget) :
  gtk_ <> gui.NULL ->
  lookup wt name_ = gui.Done (Some w0) ->
  add name_ gtk_ aux_ type_ par_ dep_ wt = gui.Done (SUCCESS, wt).
Proof.
  intros Hg Hl. rewrite add_cases by exact Hg. now rewrite Hl.
Qed.

(** X20.  [gui_widget_add] never disturbs what the table already answers:
    whatever its arguments, a lookup that found a widget before the call
    finds the same widget after it, and a lookup of a name that [strcmp]
    tells apart from the added one returns what it returned before. *)
Theorem X20_add_preserves_lookups (name_ : string) (gtk_ : gui.pointer)
    (aux_ type_ : Z) (par_ dep_ : gui.pointer) (wt wt' : gui.GUI_widget_table)
    (status : Z) (key : string) (r : option gui.GUI_widget) :
  add name_ gtk_ aux_ type_ par_ dep_ wt = gui.Done (status, wt') ->
  lookup wt key = gui.Done r ->
  r <> None \/ gui.strcmp_eq name_ key = false ->
  lookup wt' key = gui.Done r.
Proof.
  intros Hadd Hl Hr.
  destruct (N.eqb_spec gtk_ gui.NULL) as [E | Hg].
  { unfold gui.gui_widget_add in Hadd. rewrite (proj2 (N.eqb_eq _ _) E) in Hadd.
    injection Hadd as _ <-. exact Hl. }
  rewrite add_cases in Hadd by exact Hg.
  destruct (lookup wt name_) as [[w |] |] eqn:En; try discriminate.
  { injection Hadd as _ <-. exact Hl. }
  injection Hadd as _ <-.
  unfold gui.gui_widget_lookup in *. cbv zeta in *.
  destruct (N.eq_dec (hash key) (hash name_)) as [Eh | Nh].
  - rewrite Eh in *. rewrite set_bucket_same. simpl.
    rewrite strcmp_eq_c_str_l.
    destruct (gui.strcmp_eq name_ key) eqn:Es.
    + exfalso. destruct Hr as [Hr | Hr]; [| discriminate].
      apply Hr. apply strcmp_eq_true in Es.
      rewrite (chain_find_key key name_) in Hl by now symmetry.
      rewrite En in Hl. now injection Hl as <-.
    + exact Hl.
  - rewrite set_bucket_other by exact Nh. exact Hl.
Qed.

Lemma table_wf_named (wt : gui.GUI_widget_table) (i : N) (w : gui.GUI_widget) :
  table_wf M B wt -> In w (wt i) -> gui.name w <> None.
Proof.
  intros [Hwf _] Hin. destruct (Hwf i w Hin) as (n & Hn & _).
  rewrite Hn. discriminate.
Qed.

(** X21.  Well-formedness is an invariant of the table: the empty table is
    well formed, [gui_widget_add] keeps a well-formed table well formed and
    never runs into undefined behaviour on it, and on a well-formed table
    every lookup is defined and a widget it returns is an entry of the
    bucket of the key whose name [strcmp] finds equal to the key. *)
Theorem X21_table_invariant :
  table_wf M B gui.empty_table
  /\ (forall name_ gtk_ aux_ type_ par_ dep_ wt,
        table_wf M B wt ->
        exists status wt',
          add name_ gtk_ aux_ type_ par_ dep_ wt = gui.Done (status, wt')
          /\ table_wf M B wt')
  /\ (forall wt key,
        table_wf M B wt ->
        exists r, lookup wt key = gui.Done r
          /\ forall w, r = Some w ->
               In w (wt (hash key))
               /\ exists n, gui.name w = Some n
                            /\ gui.strcmp_eq n key = true).
Proof.
  assert (Hlookup : forall wt key, table_wf M B wt ->
            exists r, lookup wt key = gui.Done r).
  { intros wt key Hwf. unfold gui.gui_widget_lookup. cbv zeta.
    destruct (gui.chain_find key (wt (hash key))) as [r |] eqn:E.
    - now exists r.
    - exfalso. revert E. apply chain_find_defined.
      intros w Hw. now apply (table_wf_named wt (hash key)). }
  split; [| split].
  - split; [intros i w [] | intros i; constructor].
  - intros name_ gtk_ aux_ type_ par_ dep_ wt Hwf.
    destruct (N.eqb_spec gtk_ gui.NULL) as [E | Hg].
    { unfold gui.gui_widget_add. rewrite (proj2 (N.eqb_eq _ _) E).
      now exists (-1)%Z, wt. }
    rewrite add_cases by exact Hg.
    destruct (Hlookup wt name_ Hwf) as [[w |] El]; rewrite El.
    { now exists SUCCESS, wt. }
    eexists _, _. split; [reflexivity |].
    destruct Hwf as [Hent Hdup]. split.
    + intros i w Hin.
      destruct (N.eq_dec i (hash name_)) as [-> | Ni].
      * rewrite set_bucket_same in Hin. destruct Hin as [<- | Hin].
        -- exists (gui.c_str name_). cbn [gui.name widget_of].
           repeat split; [apply c_str_idem | apply hash_c_str].
        -- now apply Hent.
      * rewrite set_bucket_other in Hin by exact Ni. now apply Hent.
    + intros i.
      destruct (N.eq_dec i (hash name_)) as [-> | Ni].
      * rewrite set_bucket_same. simpl. constructor; [| apply Hdup].
        intros Hin. apply in_map_iff in Hin.
        destruct Hin as (w & Hn & Hw).
        unfold gui.gui_widget_lookup in El. cbv zeta in El.
        pose proof (chain_find_none _ _ El w (gui.c_str name_) Hw Hn) as Hf.
        rewrite strcmp_eq_c_str_l in Hf.
        now rewrite (proj2 (strcmp_eq_true _ _) eq_refl) in Hf.
      * rewrite set_bucket_other by exact Ni. apply Hdup.
  - intros wt key Hwf.
    destruct (Hlookup wt key Hwf) as [r El].
    exists r. split; [exact El |].
    intros w ->. unfold gui.gui_widget_lookup in El. cbv zeta in El.
    now apply chain_find_some.
Qed.

End WidgetTableFacts.

Lemma X17_witness :
  (0 < 103)%N
  /\ (gui.gui_widget_hash 31 103 "phoebe_window" < 103)%N.
Proof.
  assert (H : (0 < 103)%N) by reflexivity.
  split; [exact H |].
  apply (X17_hash_in_range 31 103 "phoebe_window" "phoebe_window" H).
Defined.

Lemma X18_witness :
  (1%N <> gui.NULL
   /\ gui.gui_widget_lookup 31 103 gui.empty_table "phoebe_window"
      = gui.Done None)
  /\ exists wt',
       gui.gui_widget_add 31 103 0 0%N "phoebe_window" 1%N 0 0 0%N 0%N
         gui.empty_table
       = gui.Done (0%Z, wt')
       /\ gui.gui_widget_lookup 31 103 wt' "phoebe_window"
          = gui.Done (Some (widget_of "phoebe_window" 1%N 0 0 0%N 0%N)).
Proof.
  assert (H1 : 1%N <> gui.NULL) by discriminate.
  assert (H2 : gui.gui_widget_lookup 31 103 gui.empty_table "phoebe_window"
               = gui.Done None) by reflexivity.
  split; [now split |].
  apply (X18_add_then_lookup 31 103 0 0%N "phoebe_window" 1%N 0 0 0%N 0%N
           gui.empty_table H1 H2).
Defined.

Lemma table_with_window_lookup :
  gui.gui_widget_lookup 31 103 table_with_window "phoebe_window"
  = gui.Done (Some (widget_of "phoebe_window" 1%N 0 0 0%N 0%N)).
Proof. reflexivity. Qed.

Lemma X19_witness :
  (2%N <> gui.NULL
   /\ gui.gui_widget_lookup 31 103 table_with_window "phoebe_window"
      = gui.Done (Some (widget_of "phoebe_window" 1%N 0 0 0%N 0%N)))
  /\ gui.gui_widget_add 31 103 0 0%N "phoebe_window" 2%N 5 7 0%N 0%N
       table_with_window
     = gui.Done (0%Z, table_with_window).
Proof.
  assert (H1 : 2%N <> gui.NULL) by discriminate.
  pose proof table_with_window_lookup as H2.
  split; [now split |].
  apply (X19_first_commit_wins 31 103 0 0%N "phoebe_window" 2%N 5 7 0%N 0%N
           table_with_window _ H1 H2).
Defined.

Lemma X20_witness :
  (exists status wt',
     gui.gui_widget_add 31 103 0 0%N "phoebe_data_lc_treeview" 2%N 0 0 0%N 0%N
       table_with_window
     = gui.Done (status, wt')
     /\ gui.gui_widget_lookup 31 103 wt' "phoebe_window"
        = gui.Done (Some (widget_of "phoebe_window" 1%N 0 0 0%N 0%N))).
Proof.
  destruct (gui.gui_widget_add 31 103 0 0%N "phoebe_data_lc_treeview"
              2%N 0 0 0%N 0%N table_with_window) as [[status wt'] |] eqn:E.
  - exists status, wt'. split; [reflexivity |].
    apply (X20_add_preserves_lookups 31 103 0 0%N
             "phoebe_data_lc_treeview" 2%N 0 0 0%N 0%N
             table_with_window wt' status "phoebe_window" _ E
             table_with_window_lookup).
    left. discriminate.
  - discriminate E.
Defined.

Lemma X21_witness :
  table_wf 31 103 gui.empty_table
  /\ exists r,
       gui.gui_widget_lookup 31 103 gui.empty_table "phoebe_window"
       = gui.Done r.
Proof.
  destruct (X21_table_invariant 31 103 0 0%N) as (Hwf & _ & Hl).
  split; [exact Hwf |].
  destruct (Hl gui.empty_table "phoebe_window"%string Hwf) as (r & Hr & _).
  now exists r.
Defined.

(** * The integrators on doubles *)

Local Open Scope float_scope.

(** ** Comparisons of doubles *)

(** [x == 0] holds of the two zeros only. *)
Lemma zero_test (x : float) :
  (x =? 0) = true -> exists s, Prim2SF x = S754_zero s.
Proof.
  rewrite FloatAxioms.eqb_spec.
  change (Prim2SF 0) with (S754_zero false).
  destruct (Prim2SF x) as [s|s| |s mx e]; cbn.
  - now exists s.
  - destruct s; discriminate.
  - discriminate.
  - destruct s; discriminate.
Qed.

(** With [omega == 0] the regime key is a zero or NaN. *)
Lemma key_of_zero (Omega0 omega : float) :
  (omega =? 0) = true ->
  (exists s, Prim2SF (dbl.key Omega0 omega) = S754_zero s)
  \/ Prim2SF (dbl.key Omega0 omega) = S754_nan.
Proof.
  intros H. destruct (zero_test _ H) as [s Hs].
  unfold dbl.key.
  rewrite FloatAxioms.div_spec, FloatAxioms.mul_spec, Hs.
  destruct (Prim2SF (Omega0 * (Omega0 * Omega0))) as [s'|s'| |s' mx e]; cbn.
  - now right.
  - left. eexists. reflexivity.
  - now right.
  - left. eexists. reflexivity.
Qed.

Lemma breakup_not_at_rest (Omega0 omega : float) :
  (omega =? 0) = true -> (dbl.breakup <? dbl.key Omega0 omega) = false.
Proof.
  intros H. rewrite FloatAxioms.ltb_spec.
  destruct (key_of_zero Omega0 _ H) as [[s ->] | ->]; reflexivity.
Qed.

Lemma boundary_not_at_rest (Omega0 omega : float) :
  (omega =? 0) = true -> (dbl.key Omega0 omega =? dbl.breakup) = false.
Proof.
  intros H. rewrite FloatAxioms.eqb_spec.
  destruct (key_of_zero Omega0 _ H) as [[s ->] | ->]; reflexivity.
Qed.

(** A key below [0.1] is not above [8./27]. *)
Lemma slow_below_breakup (t : float) :
  (t <? dbl.slow) = true -> (dbl.breakup <? t) = false.
Proof.
  rewrite !FloatAxioms.ltb_spec.
  replace (Prim2SF dbl.slow) with (S754_finite false 7205759403792794 (-56))
    by (vm_compute; reflexivity).
  replace (Prim2SF dbl.breakup) with (S754_finite false 5337599558365032 (-54))
    by (vm_compute; reflexivity).
  destruct (Prim2SF t) as [s|s| |s mx e]; try reflexivity.
  - destruct s; [reflexivity | discriminate].
  - destruct s; [reflexivity|].
    unfold SFltb, SFcompare.
    destruct (Z.compare_spec e (-56)) as [He|He|He]; try discriminate.
    + subst e. reflexivity.
    + intros _. destruct (Z.compare_spec (-54) e); try reflexivity; lia.
Qed.

(** The only double that compares equal to [8./27] is [8./27]. *)
Lemma at_boundary (t : float) :
  (t =? dbl.breakup) = true -> t = dbl.breakup.
Proof.
  rewrite FloatAxioms.eqb_spec. intros H.
  apply Prim2SF_inj. revert H.
  replace (Prim2SF dbl.breakup) with (S754_finite false 5337599558365032 (-54))
    by (vm_compute; reflexivity).
  unfold SFeqb, SFcompare.
  destruct (Prim2SF t) as [s|s| |s mx e]; cbv beta iota; try discriminate.
  - destruct s; discriminate.
  - destruct s; cbv beta iota; try discriminate.
    destruct (Z.compare_spec e (-54)) as [He|He|He]; try discriminate.
    subst e.
    destruct (PosDef.Pos.compare_cont Eq mx 5337599558365032) eqn:Hm;
      try discriminate.
    apply (Pos.compare_eq mx 5337599558365032) in Hm.
    now subst mx.
Qed.

Lemma boundary_regime (t : float) :
  (t =? dbl.breakup) = true ->
  (dbl.breakup <? t) = false /\ (t <? dbl.slow) = false.
Proof.
  intros H. rewrite (at_boundary _ H). split; vm_compute; reflexivity.
Qed.

(** ** Dispatch of the integrators on doubles *)

Lemma none_wanted (choice : N) :
  negb (wants choice 1) && negb (wants choice 2) = true ->
  wants choice 1 = false /\ wants choice 2 = false.
Proof.
  destruct (wants choice 1), (wants choice 2); simpl;
    intros H; try discriminate; now split.
Qed.

Lemma wanted_cases (choice : N) :
  negb (wants choice 1) && negb (wants choice 2)
  = negb (wants choice 1 || wants choice 2).
Proof. now destruct (wants choice 1), (wants choice 2). Qed.

Lemma area_volume_double_cases
    (av : rot_star_double.array) (choice : N) (Omega0 omega : float) :
  rot_star_double.area_volume av choice Omega0 omega
  = dbl.area_volume_dispatch av choice Omega0 omega.
Proof.
  unfold rot_star_double.area_volume, dbl.area_volume_dispatch.
  fold (wants choice 1) (wants choice 2).
  destruct (negb (wants choice 1) && negb (wants choice 2));
    [reflexivity |].
  cbv zeta.
  destruct (omega =? 0); [reflexivity |].
  unfold dbl.breakup, dbl.slow, dbl.key.
  destruct (8 / 27 <? _); [reflexivity |].
  destruct (_ <? _).
  - unfold dbl.area_volume_series, dbl.series_A, dbl.series_V, dbl.store_if,
      dbl.key, dbl.volume_table.
    cbv zeta. reflexivity.
  - unfold dbl.area_volume_integrated, dbl.area_volume_rk, dbl.store_if,
      dbl.key.
    cbv zeta. reflexivity.
Qed.

Lemma volume_double_cases
    (res : rot_star_double.array) (choice : N) (Omega0 omega : float) :
  rot_star_double.volume res choice Omega0 omega
  = dbl.volume_dispatch res choice Omega0 omega.
Proof.
  unfold rot_star_double.volume, dbl.volume_dispatch.
  fold (wants choice 1) (wants choice 2).
  destruct (negb (wants choice 1) && negb (wants choice 2));
    [reflexivity |].
  cbv zeta.
  destruct (omega =? 0); [reflexivity |].
  unfold dbl.breakup, dbl.slow, dbl.key.
  destruct (8 / 27 <? _); [reflexivity |].
  destruct (_ <? _).
  - unfold dbl.volume_series, dbl.series_V, dbl.series_dV, dbl.store_if,
      dbl.key, dbl.volume_table.
    cbv zeta. reflexivity.
  - unfold dbl.volume_integrated, dbl.volume_rk, dbl.store_if, dbl.key.
    cbv zeta. reflexivity.
Qed.

(** With an empty mask the Runge-Kutta outcome holds the untouched
    array. *)
Lemma area_volume_integrated_guard
    (av : rot_star_double.array) (choice : N) (Omega0 omega : float) :
  (if negb (wants choice 1) && negb (wants choice 2)
   then rot_star_double.ret av
   else dbl.area_volume_integrated av choice Omega0 omega)
  = dbl.area_volume_integrated av choice Omega0 omega.
Proof.
  destruct (negb _ && negb _) eqn:E; [| reflexivity].
  destruct (none_wanted _ E) as [E1 E2].
  unfold dbl.area_volume_integrated. cbv zeta. rewrite E1, E2.
  reflexivity.
Qed.

Lemma volume_integrated_guard
    (res : rot_star_double.array) (choice : N) (Omega0 omega : float) :
  (if negb (wants choice 1) && negb (wants choice 2)
   then rot_star_double.ret res
   else dbl.volume_integrated res choice Omega0 omega)
  = dbl.volume_integrated res choice Omega0 omega.
Proof.
  destruct (negb _ && negb _) eqn:E; [| reflexivity].
  destruct (none_wanted _ E) as [E1 E2].
  unfold dbl.volume_integrated. cbv zeta. rewrite E1, E2.
  reflexivity.
Qed.

(** ** Beyond breakup *)

(** C2 (amended).  On doubles, whenever the regime key the code computes,
    [t = omega*omega/(Omega0*(Omega0*Omega0))] rounded at each operation,
    compares above the double [8./27], neither [area_volume] nor [volume]
    writes any element of the caller's output array, and each of them, when
    its mask selects at least one output, prints the one diagnostic and
    returns. *)
Theorem C2_domain_failure_on_doubles
    (av res : rot_star_double.array) (choice_av choice_vol : N)
    (Omega0 omega : float) :
  (dbl.breakup <? dbl.key Omega0 omega) = true ->
  rot_star_double.mem (rot_star_double.area_volume av choice_av Omega0 omega)
  = av
  /\ rot_star_double.mem (rot_star_double.volume res choice_vol Omega0 omega)
     = res
  /\ (wants choice_av 1 = true \/ wants choice_av 2 = true ->
      rot_star_double.area_volume av choice_av Omega0 omega
      = rot_star_double.fail av rot_star.area_volume_msg)
  /\ (wants choice_vol 1 = true \/ wants choice_vol 2 = true ->
      rot_star_double.volume res choice_vol Omega0 omega
      = rot_star_double.fail res rot_star.area_volume_msg).
Proof.
  intros Ht.
  assert (Hom : (omega =? 0) = false).
  { destruct (omega =? 0) eqn:E; [| reflexivity].
    rewrite (breakup_not_at_rest Omega0 omega E) in Ht. discriminate. }
  rewrite area_volume_double_cases, volume_double_cases.
  unfold dbl.area_volume_dispatch, dbl.volume_dispatch.
  rewrite Hom, Ht.
  repeat split.
  - destruct (negb _ && negb _); reflexivity.
  - destruct (negb _ && negb _); reflexivity.
  - intros Hw. now rewrite (some_wanted _ Hw).
  - intros Hw. now rewrite (some_wanted _ Hw).
Qed.

Lemma C2_witness :
  (dbl.breakup <? dbl.key 1 1) = true
  /\ rot_star_double.area_volume (fun _ => 7) 3 1 1
     = rot_star_double.fail (fun _ => 7) rot_star.area_volume_msg
  /\ rot_star_double.volume (fun _ => 7) 3 1 1
     = rot_star_double.fail (fun _ => 7) rot_star.area_volume_msg.
Proof.
  assert (Ht : (dbl.breakup <? dbl.key 1 1) = true) by reflexivity.
  assert (Hw : wants 3 1 = true \/ wants 3 2 = true) by (left; reflexivity).
  split; [exact Ht |].
  destruct (C2_domain_failure_on_doubles (fun _ => 7) (fun _ => 7) 3 3 1 1 Ht)
    as (_ & _ & Ha & Hv).
  split; [exact (Ha Hw) | exact (Hv Hw)].
Defined.

(** Counterexample to C2 as stated for the exact [t]: the doubles
    [Omega0 = 1], [omega = 0x1.16b28f55d72d4p-1] are positive and their
    exact [omega^2/Omega0^3] is above [8/27], yet the key the code computes
    rounds to the double [8./27]: with mask 3 nothing is printed, the
    Runge-Kutta loop runs and both slots of both arrays are written. *)
Lemma C2_counterexample :
  (0 <? 1) = true /\ (0 <=? 0x1.16b28f55d72d4p-1) = true
  /\ dbl.exact_key_compare 1 0x1.16b28f55d72d4p-1 (8 # 27) = Some Gt
  /\ dbl.key 1 0x1.16b28f55d72d4p-1 = dbl.breakup
  /\ dbl.observed
       (rot_star_double.area_volume (fun _ => 0) 3 1 0x1.16b28f55d72d4p-1)
     = ([], (0x1.3df48ec6ec148p+4, 0x1.e99700fb2537fp+2))
  /\ dbl.observed
       (rot_star_double.volume (fun _ => 0) 3 1 0x1.16b28f55d72d4p-1)
     = ([], (0x1.e99700fb2537fp+2, 0x1.8ff71b1a35e0ap+16)).
Proof.
  repeat apply conj; vm_compute; reflexivity.
Qed.

(** ** The boundary *)

(** C9 (amended).  On doubles, whenever the regime key the code computes
    compares equal to the double [8./27], neither [area_volume] nor
    [volume] prints the diagnostic: the test is the strict [8./27 < t], and
    the outcome of each is that of its Runge-Kutta branch. *)
Theorem C9_boundary_on_doubles
    (av res : rot_star_double.array) (choice_av choice_vol : N)
    (Omega0 omega : float) :
  (dbl.key Omega0 omega =? dbl.breakup) = true ->
  rot_star_double.cerr (rot_star_double.area_volume av choice_av Omega0 omega)
  = []
  /\ rot_star_double.cerr
       (rot_star_double.volume res choice_vol Omega0 omega) = []
  /\ rot_star_double.area_volume av choice_av Omega0 omega
     = dbl.area_volume_integrated av choice_av Omega0 omega
  /\ rot_star_double.volume res choice_vol Omega0 omega
     = dbl.volume_integrated res choice_vol Omega0 omega.
Proof.
  intros Ht.
  assert (Hom : (omega =? 0) = false).
  { destruct (omega =? 0) eqn:E; [| reflexivity].
    rewrite (boundary_not_at_rest Omega0 omega E) in Ht. discriminate. }
  destruct (boundary_regime _ Ht) as [Hb Hs].
  rewrite area_volume_double_cases, volume_double_cases.
  unfold dbl.area_volume_dispatch, dbl.volume_dispatch.
  rewrite Hom, Hb, Hs.
  rewrite area_volume_integrated_guard, volume_integrated_guard.
  repeat split.
Qed.

Lemma C9_witness :
  (dbl.key 0x1.8p+0 1 =? dbl.breakup) = true
  /\ rot_star_double.cerr
       (rot_star_double.area_volume (fun _ => 0) 3 0x1.8p+0 1) = []
  /\ rot_star_double.cerr
       (rot_star_double.volume (fun _ => 0) 3 0x1.8p+0 1) = [].
Proof.
  assert (Ht : (dbl.key 0x1.8p+0 1 =? dbl.breakup) = true) by reflexivity.
  split; [exact Ht |].
  destruct (C9_boundary_on_doubles (fun _ => 0) (fun _ => 0) 3 3 0x1.8p+0 1 Ht)
    as (Ha & Hv & _).
  split; [exact Ha | exact Hv].
Defined.

(** Counterexample to C9 as stated for the exact [t]: the doubles
    [Omega0 = 665334], [omega = 295408296] are positive and their exact
    [omega^2/Omega0^3] is [8/27], yet the key the code computes is one unit
    in the last place above the double [8./27]: both integrators print the
    diagnostic and write nothing. *)
Lemma C9_counterexample :
  (0 <? 665334) = true /\ (0 <? 295408296) = true
  /\ dbl.exact_key_compare 665334 295408296 (8 # 27) = Some Eq
  /\ dbl.key 665334 295408296 = 0x1.2f684bda12f69p-2
  /\ dbl.breakup = 0x1.2f684bda12f68p-2
  /\ rot_star_double.area_volume (fun _ => 0) 3 665334 295408296
     = rot_star_double.fail (fun _ => 0) rot_star.area_volume_msg
  /\ rot_star_double.volume (fun _ => 0) 3 665334 295408296
     = rot_star_double.fail (fun _ => 0) rot_star.area_volume_msg.
Proof.
  repeat apply conj; vm_compute; reflexivity.
Qed.

(** ** The diagnostic *)

(** X5.  On doubles, each integrator prints the diagnostic exactly when its
    mask asks for something and the regime key it computes compares above
    the double [8./27]; it is the same text in both, naming [area_volume],
    and it is printed once.  With [omega == 0] the key is a zero or NaN and
    nothing is printed. *)
Theorem X5_failure_exactly_beyond_breakup
    (av res : rot_star_double.array) (choice : N) (Omega0 omega : float) :
  rot_star_double.cerr (rot_star_double.area_volume av choice Omega0 omega)
  = (if (wants choice 1 || wants choice 2)
        && (dbl.breakup <? dbl.key Omega0 omega)
     then [rot_star.area_volume_msg] else [])
  /\ rot_star_double.cerr (rot_star_double.volume res choice Omega0 omega)
     = (if (wants choice 1 || wants choice 2)
           && (dbl.breakup <? dbl.key Omega0 omega)
        then [rot_star.area_volume_msg] else []).
Proof.
  rewrite area_volume_double_cases, volume_double_cases.
  unfold dbl.area_volume_dispatch, dbl.volume_dispatch.
  rewrite wanted_cases.
  destruct (wants choice 1 || wants choice 2); cbn [negb andb];
    [| split; reflexivity].
  destruct (omega =? 0) eqn:Hom.
  - rewrite (breakup_not_at_rest Omega0 omega Hom). split; reflexivity.
  - destruct (dbl.breakup <? dbl.key Omega0 omega); [split; reflexivity |].
    destruct (dbl.key Omega0 omega <? dbl.slow); split; reflexivity.
Qed.

(** ** The two volumes *)

Lemma slot0_written
    (b2 : bool) (a : rot_star_double.array) (x y : float) :
  dbl.store_if b2 (dbl.store_if true a 0 x) 1 y 0%nat = x.
Proof. destruct b2; reflexivity. Qed.

Lemma slot1_written
    (b1 : bool) (a : rot_star_double.array) (x y : float) :
  dbl.store_if true (dbl.store_if b1 a 0 x) 1 y 1%nat = y.
Proof. reflexivity. Qed.




(** ** The derivative series *)

(** C6 (amended).  With the derivative bit set: on doubles, whenever
    [omega != 0] and the regime key [t] the code computes compares below
    the double [0.1], the derivative written by [volume] is the double
    [-3 f (V + t V') / Omega0] evaluated in this order, with
    [f = 4 pi / (3 Omega0^3)], [V] the unrolled Horner value of the
    11-coefficient volume table and [V'] the unrolled Horner value of the
    coefficients [k * a[k]].  In exact arithmetic, for every [Omega0 > 0]
    and [omega > 0] with [0 < t = omega^2/Omega0^3 < 0.1], the derivative
    written is [-3 f (V(t) + t V'(t)) / Omega0], where coefficient [k-1] of
    [V'] is [k * a[k]] and [V'] is the derivative of [V] with respect to
    [t]. *)
Theorem C6_derivative_series_on_doubles
    (res : array) (resd : rot_star_double.array) (choice : N)
    (Omega0 omega : R) (Omega0d omegad : float) :
  wants choice 2 = true ->
  ((omegad =? 0) = false ->
   (dbl.key Omega0d omegad <? dbl.slow) = true ->
   let t := dbl.key Omega0d omegad in
   let f := rot_star_double.M_4PI / (3 * (Omega0d * (Omega0d * Omega0d))) in
   rot_star_double.mem
     (rot_star_double.volume resd choice Omega0d omegad) 1%nat
   = - 3 * f * (dbl.series_V t + t * dbl.series_dV t) / Omega0d)
  /\ ((Omega0 > 0)%R -> (omega > 0)%R ->
      (0 < omega ^ 2 / Omega0 ^ 3 < 0.1)%R ->
      let t := (omega ^ 2 / Omega0 ^ 3)%R in
      let f := (4 * PI / (3 * Omega0 ^ 3))%R in
      let V := horner volume_coeffs in
      let V' := horner (poly_deriv volume_coeffs) in
      mem (rot_star.volume res choice Omega0 omega) 1%nat
      = (- 3 * f * (V t + t * V' t) / Omega0)%R
      /\ List.length volume_coeffs = 11%nat
      /\ (forall k : nat,
            nth k (poly_deriv volume_coeffs) 0%R
            = (INR (S k) * nth (S k) volume_coeffs 0)%R)
      /\ (forall x : R, derivable_pt_lim V x (V' x))).
Proof.
  intros Hw. split.
  - intros Hom Hs. cbv zeta.
    rewrite volume_double_cases. unfold dbl.volume_dispatch.
    rewrite (some_wanted choice) by (now right).
    rewrite Hom, (slow_below_breakup _ Hs), Hs.
    unfold dbl.volume_series, rot_star_double.ret, rot_star_double.mem.
    cbv zeta. rewrite Hw. now rewrite slot1_written.
  - intros H1 H2 H3. now apply derivative_series_exact.
Qed.

Lemma C6_witness :
  wants 2 2 = true
  /\ ((1 =? 0) = false /\ (dbl.key 5 1 <? dbl.slow) = true)
  /\ rot_star_double.mem (rot_star_double.volume (fun _ => 0) 2 5 1) 1%nat
     = - 3 * (rot_star_double.M_4PI / (3 * (5 * (5 * 5))))
       * (dbl.series_V (dbl.key 5 1)
          + dbl.key 5 1 * dbl.series_dV (dbl.key 5 1)) / 5.
Proof.
  assert (Hw : wants 2 2 = true) by reflexivity.
  assert (H1 : (1 =? 0) = false) by reflexivity.
  assert (H2 : (dbl.key 5 1 <? dbl.slow) = true) by reflexivity.
  destruct (C6_derivative_series_on_doubles
              (fun _ => 0%R) (fun _ => 0) 2 5%R 1%R 5 1 Hw) as (Hd & _).
  split; [exact Hw |].
  split; [now split |].
  exact (Hd H1 H2).
Defined.

(** Counterexample to C6 as stated for the exact [t]: the doubles
    [Omega0 = 2.875], [omega = 0x1.8aa2d32e0445fp+0] are positive and their
    exact [omega^2/Omega0^3] lies strictly between 0 and 1/10, yet the key
    the code computes is the double [0.1] itself, which is not below it:
    [volume] runs the Runge-Kutta loop, and the derivative it writes is not
    the series expression. *)
Lemma C6_counterexample :
  (0 <? 0x1.7p+1) = true /\ (0 <? 0x1.8aa2d32e0445fp+0) = true
  /\ dbl.exact_key_compare 0x1.7p+1 0x1.8aa2d32e0445fp+0 0 = Some Gt
  /\ dbl.exact_key_compare 0x1.7p+1 0x1.8aa2d32e0445fp+0 (1 # 10) = Some Lt
  /\ dbl.key 0x1.7p+1 0x1.8aa2d32e0445fp+0 = dbl.slow
  /\ dbl.observed
       (rot_star_double.volume (fun _ => 0) 2 0x1.7p+1 0x1.8aa2d32e0445fp+0)
     = ([], (0, -0x1.dcaeeb1c8a811p-3))
  /\ - 3 * (rot_star_double.M_4PI / (3 * (0x1.7p+1 * (0x1.7p+1 * 0x1.7p+1))))
     * (dbl.series_V dbl.slow + dbl.slow * dbl.series_dV dbl.slow) / 0x1.7p+1
     = -0x1.dcaed01cf723cp-3.
Proof.
  repeat apply conj; vm_compute; reflexivity.
Qed.

(** ** The mask on doubles *)

Lemma double_store_if_frame
    (b1 b2 : bool) (a : rot_star_double.array) (x y : float) (i : nat) :
  (i = 0%nat -> b1 = false) -> (i = 1%nat -> b2 = false) ->
  dbl.store_if b2 (dbl.store_if b1 a 0 x) 1 y i = a i.
Proof.
  intros H0 H1. unfold dbl.store_if, rot_star_double.store.
  destruct i as [| [| i]].
  - rewrite (H0 eq_refl). destruct b2; reflexivity.
  - rewrite (H1 eq_refl). destruct b1; reflexivity.
  - destruct b1, b2; reflexivity.
Qed.

(** X22.  On doubles, for every [Omega0], [omega] (NaN and the infinities
    included) and mask, [area_volume] and [volume] change only the slots
    whose bit is set: a slot whose bit is clear, and every slot other than
    0 and 1, keeps the caller's value; and only the two low bits of the
    mask count. *)
Theorem X22_mask_frame_on_doubles
    (a : rot_star_double.array) (choice : N) (Omega0 omega : float) :
  (forall i : nat,
      (i = 0%nat -> wants choice 1 = false) ->
      (i = 1%nat -> wants choice 2 = false) ->
      rot_star_double.mem
        (rot_star_double.area_volume a choice Omega0 omega) i = a i
      /\ rot_star_double.mem
           (rot_star_double.volume a choice Omega0 omega) i = a i)
  /\ rot_star_double.area_volume a choice Omega0 omega
     = rot_star_double.area_volume a (N.land choice 3) Omega0 omega
  /\ rot_star_double.volume a choice Omega0 omega
     = rot_star_double.volume a (N.land choice 3) Omega0 omega.
Proof.
  split.
  - intros i H0 H1.
    rewrite area_volume_double_cases, volume_double_cases.
    unfold dbl.area_volume_dispatch, dbl.volume_dispatch,
      dbl.area_volume_sphere, dbl.volume_sphere,
      dbl.area_volume_series, dbl.volume_series,
      dbl.area_volume_integrated, dbl.volume_integrated.
    cbv zeta.
    destruct (negb (wants choice 1) && negb (wants choice 2));
      [split; reflexivity |].
    destruct (omega =? 0);
      [split; apply double_store_if_frame; assumption |].
    destruct (dbl.breakup <? _); [split; reflexivity |].
    destruct (_ <? dbl.slow); split; apply double_store_if_frame; assumption.
  - rewrite (area_volume_double_cases a choice),
      (area_volume_double_cases a (N.land choice 3)),
      (volume_double_cases a choice),
      (volume_double_cases a (N.land choice 3)).
    unfold dbl.area_volume_dispatch, dbl.volume_dispatch,
      dbl.area_volume_sphere, dbl.volume_sphere,
      dbl.area_volume_series, dbl.volume_series,
      dbl.area_volume_integrated, dbl.volume_integrated.
    rewrite !(wants_low_bits choice 1), !(wants_low_bits choice 2)
      by reflexivity.
    split; reflexivity.
Qed.

Lemma X22_witness :
  wants 1 2 = false
  /\ rot_star_double.mem
       (rot_star_double.area_volume (fun _ => 7) 1 5 1) 1%nat = 7
  /\ rot_star_double.mem
       (rot_star_double.volume (fun _ => 7) 1 5 1) 1%nat = 7.
Proof.
  assert (H : wants 1 2 = false) by reflexivity.
  split; [exact H |].
  destruct (X22_mask_frame_on_doubles (fun _ => 7) 1 5 1) as [Hframe _].
  apply (Hframe 1%nat); [discriminate | intros _; exact H].
Defined.

(** ** The non-rotating sphere on doubles *)

(** X23.  On doubles, [omega == 0] holds of [+0] and [-0] alike, and then,
    for every [Omega0], both integrators take the closed-form branch: the
    volume slots of the two hold the same double [M_4PI/(3*Omega3)], the
    area slot holds [M_4PI/Omega2], the derivative slot [-3*Vol/Omega0],
    and nothing is printed. *)
Theorem X23_sphere_on_doubles
    (av res : rot_star_double.array) (choice_av choice_vol : N)
    (Omega0 omega : float) :
  (omega =? 0) = true ->
  let o1 := rot_star_double.area_volume av choice_av Omega0 omega in
  let o2 := rot_star_double.volume res choice_vol Omega0 omega in
  let Vol := rot_star_double.M_4PI / (3 * (Omega0 * (Omega0 * Omega0))) in
  rot_star_double.cerr o1 = [] /\ rot_star_double.cerr o2 = []
  /\ (wants choice_av 1 = true ->
      rot_star_double.mem o1 0%nat
      = rot_star_double.M_4PI / (Omega0 * Omega0))
  /\ (wants choice_av 2 = true -> rot_star_double.mem o1 1%nat = Vol)
  /\ (wants choice_vol 1 = true -> rot_star_double.mem o2 0%nat = Vol)
  /\ (wants choice_vol 2 = true ->
      rot_star_double.mem o2 1%nat = - 3 * Vol / Omega0).
Proof.
  intros Hom. cbv zeta.
  rewrite area_volume_double_cases, volume_double_cases.
  unfold dbl.area_volume_dispatch, dbl.volume_dispatch. rewrite Hom.
  unfold dbl.area_volume_sphere, dbl.volume_sphere.
  split; [destruct (negb _ && negb _); reflexivity |].
  split; [destruct (negb _ && negb _); reflexivity |].
  split; [| split; [| split]].
  - intros Hw. rewrite (some_wanted choice_av) by (now left).
    cbv zeta. unfold rot_star_double.ret, rot_star_double.mem.
    rewrite Hw. apply slot0_written.
  - intros Hw. rewrite (some_wanted choice_av) by (now right).
    cbv zeta. unfold rot_star_double.ret, rot_star_double.mem.
    rewrite Hw. apply slot1_written.
  - intros Hw. rewrite (some_wanted choice_vol) by (now left).
    cbv zeta. unfold rot_star_double.ret, rot_star_double.mem.
    rewrite Hw. apply slot0_written.
  - intros Hw. rewrite (some_wanted choice_vol) by (now right).
    cbv zeta. unfold rot_star_double.ret, rot_star_double.mem.
    rewrite Hw. apply slot1_written.
Qed.

Lemma X23_witness :
  (- 0 =? 0) = true
  /\ dbl.observed (rot_star_double.area_volume (fun _ => 0) 3 10 (- 0))
     = ([], (rot_star_double.M_4PI / (10 * 10),
             rot_star_double.M_4PI / (3 * (10 * (10 * 10))))).
Proof.
  assert (H : (- 0 =? 0) = true) by reflexivity.
  split; [exact H |].
  destruct (X23_sphere_on_doubles (fun _ => 0) (fun _ => 0) 3 3 10 (- 0) H)
    as (Hc & _ & Ha & Hv & _).
  unfold dbl.observed.
  rewrite Hc, (Ha eq_refl), (Hv eq_refl). reflexivity.
Defined.

(** ** The Runge-Kutta loops on doubles *)

Ltac double_rk_step :=
  cbv beta iota zeta delta
    [rot_star_double.area_volume_step rot_star_double.volume_step
     rot_star_double.store2 Nat.eqb andb
     rot_star_double.rk_v rot_star_double.rk_s rot_star_double.rk_acc1
     rot_star_double.rk_acc2 rot_star_double.rk_k].

Lemma double_area_step_track
    (b1 b2 b1' b2' : bool) (t dv : float) (sa sb : rot_star_double.rk_state) :
  dbl.same_track sa sb ->
  dbl.same_track (rot_star_double.area_volume_step b1 b2 t dv sa)
                 (rot_star_double.area_volume_step b1' b2' t dv sb).
Proof.
  destruct sa as [v s A V k], sb as [v' s' A' V' k'].
  unfold dbl.same_track at 1.
  cbv beta iota delta [rot_star_double.rk_v rot_star_double.rk_s].
  intros (-> & ->). unfold dbl.same_track.
  destruct b1, b2, b1', b2'; double_rk_step; split; reflexivity.
Qed.

Lemma double_volume_step_track
    (b1 b2 b1' b2' : bool) (t dv : float) (sa sb : rot_star_double.rk_state) :
  dbl.same_track sa sb ->
  dbl.same_track (rot_star_double.volume_step b1 b2 t dv sa)
                 (rot_star_double.volume_step b1' b2' t dv sb).
Proof.
  destruct sa as [v s A V k], sb as [v' s' A' V' k'].
  unfold dbl.same_track at 1.
  cbv beta iota delta [rot_star_double.rk_v rot_star_double.rk_s].
  intros (-> & ->). unfold dbl.same_track.
  destruct b1, b2, b1', b2'; double_rk_step; split; reflexivity.
Qed.

Lemma double_area_step_acc1
    (b2 b2' : bool) (t dv : float) (sa sb : rot_star_double.rk_state) :
  dbl.same_acc1 sa sb ->
  dbl.same_acc1 (rot_star_double.area_volume_step true b2 t dv sa)
                (rot_star_double.area_volume_step true b2' t dv sb).
Proof.
  intros [Ht Ha]. split; [now apply double_area_step_track |].
  destruct sa as [v s A V k], sb as [v' s' A' V' k'].
  destruct Ht as [Hv Hs].
  cbv beta iota delta
    [rot_star_double.rk_v rot_star_double.rk_s rot_star_double.rk_acc1] in *.
  subst v' s' A'.
  destruct b2, b2'; double_rk_step; reflexivity.
Qed.

Lemma double_area_step_acc2
    (b1 b1' : bool) (t dv : float) (sa sb : rot_star_double.rk_state) :
  dbl.same_acc2 sa sb ->
  dbl.same_acc2 (rot_star_double.area_volume_step b1 true t dv sa)
                (rot_star_double.area_volume_step b1' true t dv sb).
Proof.
  intros [Ht Ha]. split; [now apply double_area_step_track |].
  destruct sa as [v s A V k], sb as [v' s' A' V' k'].
  destruct Ht as [Hv Hs].
  cbv beta iota delta
    [rot_star_double.rk_v rot_star_double.rk_s rot_star_double.rk_acc2] in *.
  subst v' s' V'.
  destruct b1, b1'; double_rk_step; reflexivity.
Qed.

Lemma double_volume_step_acc1
    (b2 b2' : bool) (t dv : float) (sa sb : rot_star_double.rk_state) :
  dbl.same_acc1 sa sb ->
  dbl.same_acc1 (rot_star_double.volume_step true b2 t dv sa)
                (rot_star_double.volume_step true b2' t dv sb).
Proof.
  intros [Ht Ha]. split; [now apply double_volume_step_track |].
  destruct sa as [v s A V k], sb as [v' s' A' V' k'].
  destruct Ht as [Hv Hs].
  cbv beta iota delta
    [rot_star_double.rk_v rot_star_double.rk_s rot_star_double.rk_acc1] in *.
  subst v' s' A'.
  destruct b2, b2'; double_rk_step; reflexivity.
Qed.

Lemma double_volume_step_acc2
    (b1 b1' : bool) (t dv : float) (sa sb : rot_star_double.rk_state) :
  dbl.same_acc2 sa sb ->
  dbl.same_acc2 (rot_star_double.volume_step b1 true t dv sa)
                (rot_star_double.volume_step b1' true t dv sb).
Proof.
  intros [Ht Ha]. split; [now apply double_volume_step_track |].
  destruct sa as [v s A V k], sb as [v' s' A' V' k'].
  destruct Ht as [Hv Hs].
  cbv beta iota delta
    [rot_star_double.rk_v rot_star_double.rk_s rot_star_double.rk_acc2] in *.
  subst v' s' V'.
  destruct b1, b1'; double_rk_step; reflexivity.
Qed.

Lemma double_iter_related
    (Rel : rot_star_double.rk_state -> rot_star_double.rk_state -> Prop)
    (f g : rot_star_double.rk_state -> rot_star_double.rk_state) (n : N)
    (x y : rot_star_double.rk_state) :
  (forall a b, Rel a b -> Rel (f a) (g b)) ->
  Rel x y -> Rel (N.iter n f x) (N.iter n g y).
Proof.
  intros Hstep Hxy. induction n as [| n IH] using N.peano_ind.
  - exact Hxy.
  - rewrite !N.iter_succ. apply Hstep, IH.
Qed.

Lemma double_area_rk_acc1 (b2 b2' : bool) (t : float) :
  rot_star_double.rk_acc1 (dbl.area_volume_rk true b2 t)
  = rot_star_double.rk_acc1 (dbl.area_volume_rk true b2' t).
Proof.
  unfold dbl.area_volume_rk.
  apply (double_iter_related dbl.same_acc1);
    [apply double_area_step_acc1 | repeat split].
Qed.

Lemma double_area_rk_acc2 (b1 b1' : bool) (t : float) :
  rot_star_double.rk_acc2 (dbl.area_volume_rk b1 true t)
  = rot_star_double.rk_acc2 (dbl.area_volume_rk b1' true t).
Proof.
  unfold dbl.area_volume_rk.
  apply (double_iter_related dbl.same_acc2);
    [apply double_area_step_acc2 | repeat split].
Qed.

Lemma double_volume_rk_acc1 (b2 b2' : bool) (t : float) :
  rot_star_double.rk_acc1 (dbl.volume_rk true b2 t)
  = rot_star_double.rk_acc1 (dbl.volume_rk true b2' t).
Proof.
  unfold dbl.volume_rk.
  apply (double_iter_related dbl.same_acc1);
    [apply double_volume_step_acc1 | repeat split].
Qed.

Lemma double_volume_rk_acc2 (b1 b1' : bool) (t : float) :
  rot_star_double.rk_acc2 (dbl.volume_rk b1 true t)
  = rot_star_double.rk_acc2 (dbl.volume_rk b1' true t).
Proof.
  unfold dbl.volume_rk.
  apply (double_iter_related dbl.same_acc2);
    [apply double_volume_step_acc2 | repeat split].
Qed.

(** X24.  On doubles, what an integrator writes into a requested slot is
    bit for bit the value it writes when that output alone is asked for,
    in every regime, the Runge-Kutta loop included. *)
Theorem X24_outputs_independent_on_doubles
    (a : rot_star_double.array) (choice : N) (Omega0 omega : float) :
  (wants choice 1 = true ->
   rot_star_double.mem (rot_star_double.area_volume a choice Omega0 omega)
     0%nat
   = rot_star_double.mem (rot_star_double.area_volume a 1 Omega0 omega) 0%nat
   /\ rot_star_double.mem (rot_star_double.volume a choice Omega0 omega)
        0%nat
      = rot_star_double.mem (rot_star_double.volume a 1 Omega0 omega) 0%nat)
  /\ (wants choice 2 = true ->
      rot_star_double.mem (rot_star_double.area_volume a choice Omega0 omega)
        1%nat
      = rot_star_double.mem (rot_star_double.area_volume a 2 Omega0 omega)
          1%nat
      /\ rot_star_double.mem (rot_star_double.volume a choice Omega0 omega)
           1%nat
         = rot_star_double.mem (rot_star_double.volume a 2 Omega0 omega)
             1%nat).
Proof.
  rewrite (area_volume_double_cases a choice),
    (area_volume_double_cases a 1), (area_volume_double_cases a 2),
    (volume_double_cases a choice),
    (volume_double_cases a 1), (volume_double_cases a 2).
  unfold dbl.area_volume_dispatch, dbl.volume_dispatch,
    dbl.area_volume_sphere, dbl.volume_sphere,
    dbl.area_volume_series, dbl.volume_series,
    dbl.area_volume_integrated, dbl.volume_integrated.
  cbv zeta.
  change (wants 1 1) with true. change (wants 1 2) with false.
  change (wants 2 1) with false. change (wants 2 2) with true.
  cbn [negb andb].
  generalize (dbl.key Omega0 omega). intros t.
  split; intros Hw; rewrite Hw; rewrite ?andb_false_r; cbn [negb andb].
  - pose proof (double_area_rk_acc1 (wants choice 2) false t) as Ea.
    pose proof (double_volume_rk_acc1 (wants choice 2) false t) as Ev.
    revert Ea Ev.
    generalize (dbl.area_volume_rk true (wants choice 2) t).
    generalize (dbl.area_volume_rk true false t).
    generalize (dbl.volume_rk true (wants choice 2) t).
    generalize (dbl.volume_rk true false t).
    intros V0 V1 A0 A1 Ea Ev.
    destruct (omega =? 0);
      [| destruct (dbl.breakup <? t); [| destruct (t <? dbl.slow)]];
      unfold rot_star_double.ret, rot_star_double.fail, rot_star_double.mem;
      rewrite ?slot0_written, ?Ea, ?Ev; split; reflexivity.
  - pose proof (double_area_rk_acc2 (wants choice 1) false t) as Ea.
    pose proof (double_volume_rk_acc2 (wants choice 1) false t) as Ev.
    revert Ea Ev.
    generalize (dbl.area_volume_rk (wants choice 1) true t).
    generalize (dbl.area_volume_rk false true t).
    generalize (dbl.volume_rk (wants choice 1) true t).
    generalize (dbl.volume_rk false true t).
    intros V0 V1 A0 A1 Ea Ev.
    destruct (omega =? 0);
      [| destruct (dbl.breakup <? t); [| destruct (t <? dbl.slow)]];
      unfold rot_star_double.ret, rot_star_double.fail, rot_star_double.mem;
      rewrite ?slot1_written, ?Ea, ?Ev; split; reflexivity.
Qed.

Lemma X24_witness :
  wants 3 1 = true
  /\ rot_star_double.mem (rot_star_double.area_volume (fun _ => 0) 3 2 1)
       0%nat
     = rot_star_double.mem (rot_star_double.area_volume (fun _ => 0) 1 2 1)
         0%nat.
Proof.
  assert (H : wants 3 1 = true) by reflexivity.
  split; [exact H |].
  destruct (X24_outputs_independent_on_doubles (fun _ => 0) 3 2 1)
    as [H1 _].
  exact (proj1 (H1 H)).
Defined.

Lemma double_area_step_v
    (b1 b2 : bool) (t dv : float) (st : rot_star_double.rk_state) :
  rot_star_double.rk_v (rot_star_double.area_volume_step b1 b2 t dv st)
  = rot_star_double.rk_v st - dv.
Proof.
  destruct st as [v s A V k]. destruct b1, b2; double_rk_step; reflexivity.
Qed.

Lemma double_volume_step_v
    (b1 b2 : bool) (t dv : float) (st : rot_star_double.rk_state) :
  rot_star_double.rk_v (rot_star_double.volume_step b1 b2 t dv st)
  = rot_star_double.rk_v st - dv.
Proof.
  destruct st as [v s A V k]. destruct b1, b2; double_rk_step; reflexivity.
Qed.

Lemma double_iter_v
    (f : rot_star_double.rk_state -> rot_star_double.rk_state) (dv : float)
    (n : N) :
  (forall st, rot_star_double.rk_v (f st) = rot_star_double.rk_v st - dv) ->
  rot_star_double.rk_v (N.iter n f rot_star_double.rk_init)
  = N.iter n (fun v => v - dv) 1.
Proof.
  intros Hf. induction n as [| n IH] using N.peano_ind.
  - reflexivity.
  - now rewrite !N.iter_succ, Hf, IH.
Qed.

Lemma double_descent : N.iter rot_star_double.m (fun v => v - 1 / 65536) 1 = 0.
Proof. vm_compute. reflexivity. Qed.

(** X25.  On doubles, both Runge-Kutta loops move [v] down from the pole by
    [dv = 2^-16] at each iteration, whatever the mask and the regime key
    (NaN included), and every subtraction is exact: after the
    [m = 65536] iterations of a call [v] is the double [0], the equator. *)
Theorem X25_loops_end_at_equator_on_doubles (b1 b2 : bool) (t : float) :
  (forall n : N,
      rot_star_double.rk_v
        (N.iter n (rot_star_double.area_volume_step b1 b2 t (1 / 65536))
           rot_star_double.rk_init)
      = N.iter n (fun v => v - 1 / 65536) 1
      /\ rot_star_double.rk_v
           (N.iter n (rot_star_double.volume_step b1 b2 t (1 / 65536))
              rot_star_double.rk_init)
         = N.iter n (fun v => v - 1 / 65536) 1)
  /\ rot_star_double.rk_v (dbl.area_volume_rk b1 b2 t) = 0
  /\ rot_star_double.rk_v (dbl.volume_rk b1 b2 t) = 0.
Proof.
  assert (Ha : forall n,
             rot_star_double.rk_v
               (N.iter n (rot_star_double.area_volume_step b1 b2 t (1 / 65536))
                  rot_star_double.rk_init)
             = N.iter n (fun v => v - 1 / 65536) 1)
    by (intros n; apply double_iter_v; intros st; apply double_area_step_v).
  assert (Hv : forall n,
             rot_star_double.rk_v
               (N.iter n (rot_star_double.volume_step b1 b2 t (1 / 65536))
                  rot_star_double.rk_init)
             = N.iter n (fun v => v - 1 / 65536) 1)
    by (intros n; apply double_iter_v; intros st; apply double_volume_step_v).
  split; [intros n; split; [apply Ha | apply Hv] |].
  split.
  - exact (eq_trans (Ha rot_star_double.m) double_descent).
  - exact (eq_trans (Hv rot_star_double.m) double_descent).
Qed.
